(** * The task state manager of the todo application (App.tsx)

    A shallow embedding of the React component's state and of the callbacks
    that transform it, followed by the properties of the specification that
    were checked against it.

    Conventions of the embedding.
    - A JavaScript string is its sequence of UTF-16 code units ([jsstring]).
    - A JavaScript Number is an IEEE 754 binary64 value, given by the
      Standard Library's executable specification [spec_float].
    - [useState] cells are the fields of [AppState]; a callback is a function
      on [AppState]; the state updates a callback queues are applied in the
      order the source queues them.
    - Platform functions whose result the source does not determine
      ([String.prototype.localeCompare], [JSON.parse], [crypto.randomUUID],
      the clock) are parameters. *)

From Stdlib Require Import ZArith NArith List String Ascii Decimal.
From Stdlib Require Import Floats.SpecFloat.
From stdpp Require Import base decidable option numbers list sorting gmap.

Local Open Scope Z_scope.

(** ** JavaScript strings *)

Module JS.

(** A string is a list of UTF-16 code units. *)
Definition jsstring := list N.

(** The code units of an ASCII literal of the source. *)
Fixpoint lit (s : string) : jsstring :=
  match s with
  | EmptyString => []
  | String c s' => N_of_ascii c :: lit s'
  end.

(** The double quote character, U+0022. *)
Definition dquote : jsstring := [34%N].

(** [WhiteSpace] and [LineTerminator] of ECMAScript, which [trim] strips. *)
Definition isWhiteSpace (c : N) : bool :=
  ((9 <=? c) && (c <=? 13) ||
   (c =? 32) || (c =? 160) || (c =? 5760) ||
   ((8192 <=? c) && (c <=? 8202)) ||
   (c =? 8232) || (c =? 8233) || (c =? 8239) || (c =? 8287) ||
   (c =? 12288) || (c =? 65279))%N.

Fixpoint trimStart (s : jsstring) : jsstring :=
  match s with
  | [] => []
  | c :: s' => if isWhiteSpace c then trimStart s' else s
  end.

Definition trimEnd (s : jsstring) : jsstring := rev (trimStart (rev s)).

(** [String.prototype.trim]. *)
Definition trim (s : jsstring) : jsstring := trimEnd (trimStart s).

(** Comparison of two strings code unit by code unit: the order of the
    relational operators [<], [>] on strings. *)
Fixpoint codeUnitCompare (a b : jsstring) : comparison :=
  match a, b with
  | [], [] => Eq
  | [], _ :: _ => Lt
  | _ :: _, [] => Gt
  | x :: a', y :: b' =>
      match N.compare x y with
      | Eq => codeUnitCompare a' b'
      | c => c
      end
  end.

(** [a < b] on strings. *)
Definition strLt (a b : jsstring) : bool :=
  match codeUnitCompare a b with Lt => true | _ => false end.

(** [ToBoolean] of a string: only the empty string is falsy. *)
Definition truthyStr (s : jsstring) : bool :=
  match s with [] => false | _ => true end.

(** [ToString] of a non-negative integer Number, in decimal. *)
Fixpoint uintDigits (d : Decimal.uint) : jsstring :=
  match d with
  | Nil => []
  | D0 d' => 48%N :: uintDigits d'
  | D1 d' => 49%N :: uintDigits d'
  | D2 d' => 50%N :: uintDigits d'
  | D3 d' => 51%N :: uintDigits d'
  | D4 d' => 52%N :: uintDigits d'
  | D5 d' => 53%N :: uintDigits d'
  | D6 d' => 54%N :: uintDigits d'
  | D7 d' => 55%N :: uintDigits d'
  | D8 d' => 56%N :: uintDigits d'
  | D9 d' => 57%N :: uintDigits d'
  end.

Definition natToString (n : nat) : jsstring := uintDigits (Nat.to_uint n).

(** *** Numbers *)

Definition Number := spec_float.

Definition prec : Z := 53.
Definition emax : Z := 1024.

(** The Number of an integer (exact below 2^53). *)
Definition numOfZ (z : Z) : Number := binary_normalize prec emax z 0 false.

Definition numDiv (x y : Number) : Number := SFdiv prec emax x y.
Definition numMul (x y : Number) : Number := SFmul prec emax x y.

(** [Math.round]: the integral Number closest to [x], a tie going towards
    positive infinity; NaN, the infinities and the zeros are returned
    unchanged, and a negative [x] of at most one half in magnitude gives
    negative zero. *)
Definition Math_round (x : Number) : Number :=
  match x with
  | S754_finite s m e =>
      if 0 <=? e then x
      else
        let v := if s then Z.neg m else Z.pos m in
        let r := (2 * v + 2 ^ (- e)) / 2 ^ (1 - e) in
        if r =? 0 then S754_zero s else binary_normalize prec emax r 0 s
  | _ => x
  end.

(** A stable sort by a comparator that returns a Number's sign as [Z]
    ([Array.prototype.sort] is stable; for a consistent comparator every
    conforming implementation returns this list). An element goes before the
    first element it does not compare greater than. *)
Section Sort.
Context {A : Type} (cmp : A -> A -> Z).

Fixpoint insertBy (x : A) (l : list A) : list A :=
  match l with
  | [] => [x]
  | y :: l' => if cmp x y <=? 0 then x :: l else y :: insertBy x l'
  end.

Fixpoint sortBy (l : list A) : list A :=
  match l with
  | [] => []
  | x :: l' => insertBy x (sortBy l')
  end.
End Sort.

End JS.

Import JS.

(** ** Data model *)

(** A task. [dueDate] is [None] when the field is absent or [null] (every
    use in the source goes through [??], [!] or [&&], which do not tell the
    two apart) and [Some d] when it holds the string [d]. *)
Record Todo := mkTodo {
  id : jsstring;
  text : jsstring;
  done : bool;
  dueDate : option jsstring
}.

#[global] Instance Todo_eq_dec : EqDecision Todo.
Proof. solve_decision. Defined.

Inductive Filter := FAll | FActive | FCompleted.
Inductive SortMode := Manual | Due | Status.

(** The [useState] cells of [App]. *)
Record AppState := mkState {
  todos : list Todo;
  newTodo : jsstring;
  newDue : jsstring;
  filter_ : Filter;
  sort_ : SortMode;
  editingId : option jsstring;
  editingText : jsstring;
  undoStack : option (list Todo);
  undoMessage : option jsstring
}.

(** The state of the first render. *)
Definition initialState : AppState :=
  mkState [] [] [] FAll Manual None [] None None.

(** The state setters. *)
Definition setTodos (f : list Todo -> list Todo) (s : AppState) : AppState :=
  mkState (f (todos s)) (newTodo s) (newDue s) (filter_ s) (sort_ s)
          (editingId s) (editingText s) (undoStack s) (undoMessage s).
Definition setNewTodo (v : jsstring) (s : AppState) : AppState :=
  mkState (todos s) v (newDue s) (filter_ s) (sort_ s)
          (editingId s) (editingText s) (undoStack s) (undoMessage s).
Definition setNewDue (v : jsstring) (s : AppState) : AppState :=
  mkState (todos s) (newTodo s) v (filter_ s) (sort_ s)
          (editingId s) (editingText s) (undoStack s) (undoMessage s).
Definition setFilter (v : Filter) (s : AppState) : AppState :=
  mkState (todos s) (newTodo s) (newDue s) v (sort_ s)
          (editingId s) (editingText s) (undoStack s) (undoMessage s).
Definition setSort (v : SortMode) (s : AppState) : AppState :=
  mkState (todos s) (newTodo s) (newDue s) (filter_ s) v
          (editingId s) (editingText s) (undoStack s) (undoMessage s).
Definition setEditingId (v : option jsstring) (s : AppState) : AppState :=
  mkState (todos s) (newTodo s) (newDue s) (filter_ s) (sort_ s)
          v (editingText s) (undoStack s) (undoMessage s).
Definition setEditingText (v : jsstring) (s : AppState) : AppState :=
  mkState (todos s) (newTodo s) (newDue s) (filter_ s) (sort_ s)
          (editingId s) v (undoStack s) (undoMessage s).
Definition setUndoStack (v : option (list Todo)) (s : AppState) : AppState :=
  mkState (todos s) (newTodo s) (newDue s) (filter_ s) (sort_ s)
          (editingId s) (editingText s) v (undoMessage s).
Definition setUndoMessage (v : option jsstring) (s : AppState) : AppState :=
  mkState (todos s) (newTodo s) (newDue s) (filter_ s) (sort_ s)
          (editingId s) (editingText s) (undoStack s) v.

(** ** Identifier generator *)

(** What [safeId] reads from its environment at one call: whether
    [crypto.randomUUID] exists, the UUID it would return, and the string of
    [Date.now() + Math.random()]. *)
Record IdSource := mkIdSource {
  hasRandomUUID : bool;
  randomUUID : jsstring;
  timePlusRandom : jsstring
}.

Definition safeId (e : IdSource) : jsstring :=
  if hasRandomUUID e then randomUUID e else timePlusRandom e.

(** ** Task store *)

Definition hasId (i : jsstring) (t : Todo) : bool := bool_decide (id t = i).

Definition withDone (b : bool) (t : Todo) : Todo :=
  mkTodo (id t) (text t) b (dueDate t).
Definition withText (x : jsstring) (t : Todo) : Todo :=
  mkTodo (id t) x (done t) (dueDate t).

Definition deletedMessage (t : Todo) : jsstring :=
  lit "Deleted " ++ dquote ++ text t ++ dquote.

(** [addTodo], the submit handler of the form: it reads the two inputs. *)
Definition addTodo (e : IdSource) (s : AppState) : AppState :=
  let trimmed := trim (newTodo s) in
  let canAdd := (0 <? length trimmed)%nat in
  if negb canAdd then s
  else
    let due := if truthyStr (newDue s) then Some (newDue s) else None in
    let newTask := mkTodo (safeId e) trimmed false due in
    setNewDue [] (setNewTodo [] (setTodos (fun prev => prev ++ [newTask]) s)).

Definition onInputChange (v : jsstring) (s : AppState) : AppState := setNewTodo v s.
Definition onDueChange (v : jsstring) (s : AppState) : AppState := setNewDue v s.

Definition onInputKeyDown (key : jsstring) (s : AppState) : AppState :=
  if bool_decide (key = lit "Escape") then setNewDue [] (setNewTodo [] s) else s.

Definition toggleTodo (i : jsstring) (s : AppState) : AppState :=
  setTodos (fmap (fun t => if hasId i t then withDone (negb (done t)) t else t)) s.

Definition deleteTodo (i : jsstring) (s : AppState) : AppState :=
  match List.find (hasId i) (todos s) with
  | None => s
  | Some removed =>
      setTodos (filter (fun t => id t <> i))
        (setUndoMessage (Some (deletedMessage removed))
           (setUndoStack (Some [removed]) s))
  end.

Definition startEditing (t : Todo) (s : AppState) : AppState :=
  setEditingText (text t) (setEditingId (Some (id t)) s).

Definition cancelEditing (s : AppState) : AppState :=
  setEditingText [] (setEditingId None s).

Definition saveEditing (s : AppState) : AppState :=
  let text := trim (editingText s) in
  match editingId s with
  | None => s
  | Some eid =>
      let s1 :=
        if (length text =? 0)%nat then
          let s0 :=
            match List.find (hasId eid) (todos s) with
            | Some removed =>
                setUndoMessage (Some (deletedMessage removed))
                  (setUndoStack (Some [removed]) s)
            | None => s
            end in
          setTodos (filter (fun t => id t <> eid)) s0
        else
          setTodos (fmap (fun t => if hasId eid t then withText text t else t)) s in
      setEditingText [] (setEditingId None s1)
  end.

Definition onEditKeyDown (key : jsstring) (s : AppState) : AppState :=
  if bool_decide (key = lit "Enter") then saveEditing s
  else if bool_decide (key = lit "Escape") then cancelEditing s
  else s.

Definition clearedMessage (n : nat) : jsstring :=
  lit "Cleared " ++ natToString n ++ lit " completed item" ++
  (if (n =? 1)%nat then [] else lit "s").

Definition clearCompleted (s : AppState) : AppState :=
  let removed := filter (fun t => done t = true) (todos s) in
  let s0 :=
    if (0 <? length removed)%nat then
      setUndoMessage (Some (clearedMessage (length removed)))
        (setUndoStack (Some removed) s)
    else s in
  setTodos (filter (fun t => done t = false)) s0.

Definition undo (s : AppState) : AppState :=
  match undoStack s with
  | None => s
  | Some stack =>
      if (length stack =? 0)%nat then s
      else
        setUndoMessage None
          (setUndoStack None
             (setTodos
                (fun prev =>
                   let existingIds : gset jsstring := list_to_set (id <$> prev) in
                   let restored := filter (fun t => id t ∉ existingIds) stack in
                   prev ++ restored) s))
  end.

(** The click handler of the snackbar's dismiss button. *)
Definition dismissUndo (s : AppState) : AppState :=
  setUndoMessage None (setUndoStack None s).

(** The operations as the specification names them. [add] types the text and
    the date into the form and submits it; [editCommit] commits an editing
    session on task [i] whose draft is [x]. *)
Definition add (x : jsstring) (due : option jsstring) (e : IdSource)
    (s : AppState) : AppState :=
  addTodo e (onDueChange (default [] due) (onInputChange x s)).

Definition editCommit (i x : jsstring) (s : AppState) : AppState :=
  saveEditing (setEditingText x (setEditingId (Some i) s)).

(** ** View projection *)

(** Arrays live in a store and are handled through references, so that an
    in-place [sort] on an alias of the canonical collection would show. *)
Definition Ref := nat.
Abbreviation Heap := (list (list Todo)).

Definition deref (h : Heap) (r : Ref) : list Todo := default [] (h !! r).

Definition alloc (v : list Todo) (h : Heap) : Ref * Heap := (length h, h ++ [v]).

(** [arr.filter(p)]: a new array. *)
Definition arrFilter (P : Todo -> Prop) `{!∀ t, Decision (P t)}
    (r : Ref) (h : Heap) : Ref * Heap :=
  alloc (filter P (deref h r)) h.

(** [[...arr]]: a new array with the same elements. *)
Definition arrSpread (r : Ref) (h : Heap) : Ref * Heap := alloc (deref h r) h.

(** [arr.sort(cmp)]: sorts the array in place and returns it. *)
Definition arrSort (cmp : Todo -> Todo -> Z) (r : Ref) (h : Heap) : Ref * Heap :=
  (r, <[r := sortBy cmp (deref h r)]> h).

(** [t.dueDate ?? ""]. *)
Definition dueKey (t : Todo) : jsstring := default [] (dueDate t).

(** [ToBoolean(t.dueDate)]. *)
Definition truthyDue (t : Todo) : bool := truthyStr (dueKey t).

Definition keep (f : Filter) (t : Todo) : Prop :=
  match f with
  | FAll => True
  | FActive => done t = false
  | FCompleted => done t = true
  end.

#[global] Instance keep_dec f t : Decision (keep f t).
Proof. destruct f; simpl; apply _. Defined.

Section View.
(** [a.localeCompare(b)]: negative, zero or positive. The collation is the
    host's. *)
Variable localeCompare : jsstring -> jsstring -> Z.

(** The comparator of the [due] mode. *)
Definition compareDue (a b : Todo) : Z :=
  let ad := dueKey a in
  let bd := dueKey b in
  if bool_decide (ad = bd) then localeCompare (text a) (text b)
  else if negb (truthyStr ad) then 1
  else if negb (truthyStr bd) then -1
  else localeCompare ad bd.

(** The comparator of the [status] mode:
    [Number(a.done) - Number(b.done) || a.text.localeCompare(b.text)]. *)
Definition compareStatus (a b : Todo) : Z :=
  let d := Z.b2z (done a) - Z.b2z (done b) in
  if d =? 0 then localeCompare (text a) (text b) else d.

(** The body of the [filteredTodos] memo, on the store. *)
Definition filteredTodosOn (todosRef : Ref) (f : Filter) (m : SortMode)
    (h : Heap) : Ref * Heap :=
  let '(list, h1) :=
    match f with
    | FActive => arrFilter (fun t => done t = false) todosRef h
    | FCompleted => arrFilter (fun t => done t = true) todosRef h
    | FAll => (todosRef, h)
    end in
  match m with
  | Due => let '(c, h2) := arrSpread list h1 in arrSort compareDue c h2
  | Status => let '(c, h2) := arrSpread list h1 in arrSort compareStatus c h2
  | Manual => (list, h1)
  end.

(** The displayed sequence of a state. *)
Definition filteredTodos (s : AppState) : list Todo :=
  let '(r, h) := filteredTodosOn 0%nat (filter_ s) (sort_ s) [todos s] in
  deref h r.
End View.

Definition remainingCount (s : AppState) : nat :=
  length (filter (fun t => done t = false) (todos s)).

Definition completionPct (s : AppState) : Number :=
  let total := length (todos s) in
  if (total =? 0)%nat then numOfZ 0
  else
    Math_round
      (numMul
         (numDiv (numOfZ (Z.of_nat total - Z.of_nat (remainingCount s)))
                 (numOfZ (Z.of_nat total)))
         (numOfZ 100)).

(** [isOverdue]; [today] is [new Date().toISOString().slice(0, 10)]. *)
Definition isOverdue (today : jsstring) (t : Todo) : bool :=
  if negb (truthyDue t) || done t then false
  else strLt (dueKey t) today.

(** ** Loading the persisted state *)

(** The values [JSON.parse] can return. *)
#[local] Set Warnings "-register-all".
Inductive JSValue :=
| JNull
| JBool (b : bool)
| JNum (n : Number)
| JStr (s : jsstring)
| JArr (l : list JSValue)
| JObj (fields : list (jsstring * JSValue)).

Definition Array_isArray (v : JSValue) : bool :=
  match v with JArr _ => true | _ => false end.

Definition arrayElements (v : JSValue) : list JSValue :=
  match v with JArr l => l | _ => [] end.

(** The outcome of an expression that may throw. *)
Inductive Completion (A : Type) :=
| Normal (a : A)
| Throw.
Arguments Normal {A} a.
Arguments Throw {A}.

(** Statements: they read and write the component's state and may throw; the
    updates made before a throw stay. *)
Definition Stmt (A : Type) := AppState -> Completion A * AppState.

Definition ret {A} (a : A) : Stmt A := fun s => (Normal a, s).

Definition bind {A B} (c : Stmt A) (k : A -> Stmt B) : Stmt B :=
  fun s =>
    match c s with
    | (Normal a, s') => k a s'
    | (Throw, s') => (Throw, s')
    end.

Definition eval {A} (c : Completion A) : Stmt A := fun s => (c, s).

Definition update (f : AppState -> AppState) : Stmt unit :=
  fun s => (Normal tt, f s).

(** [try { c } catch {}]. *)
Definition tryCatch (c : Stmt unit) : Stmt unit :=
  fun s => (Normal tt, snd (c s)).

#[global] Instance Stmt_ret : MRet Stmt := @ret.
#[global] Instance Stmt_bind : MBind Stmt := fun A B k c => bind c k.

Module STORAGE_KEYS.
Definition todos : jsstring := lit "todos".
Definition filter : jsstring := lit "todos_filter".
Definition sort : jsstring := lit "todos_sort".
End STORAGE_KEYS.

Definition filterOfString (v : jsstring) : option Filter :=
  if bool_decide (v = lit "all") then Some FAll
  else if bool_decide (v = lit "active") then Some FActive
  else if bool_decide (v = lit "completed") then Some FCompleted
  else None.

Definition sortOfString (v : jsstring) : option SortMode :=
  if bool_decide (v = lit "manual") then Some Manual
  else if bool_decide (v = lit "due") then Some Due
  else if bool_decide (v = lit "status") then Some Status
  else None.

Section Load.
(** [localStorage.getItem]: it throws, or returns [null] or a string. *)
Variable getItem : jsstring -> Completion (option jsstring).
(** [JSON.parse]: it throws on text that is not JSON. *)
Variable JSON_parse : jsstring -> Completion JSValue.
(** The elements of a parsed array seen at the type [Todo] (the annotation
    [const parsed: Todo[]] checks nothing at run time). *)
Variable asTodo : JSValue -> Todo.

Definition loadTodos : Stmt unit :=
  saved ← eval (getItem STORAGE_KEYS.todos);
  match saved with
  | Some str =>
      if truthyStr str then
        parsed ← eval (JSON_parse str);
        if Array_isArray parsed
        then update (setTodos (fun _ => asTodo <$> arrayElements parsed))
        else ret tt
      else ret tt
  | None => ret tt
  end.

Definition loadFilter : Stmt unit :=
  savedFilter ← eval (getItem STORAGE_KEYS.filter);
  match savedFilter with
  | Some v =>
      match filterOfString v with
      | Some f => update (setFilter f)
      | None => ret tt
      end
  | None => ret tt
  end.

Definition loadSort : Stmt unit :=
  savedSort ← eval (getItem STORAGE_KEYS.sort);
  match savedSort with
  | Some v =>
      match sortOfString v with
      | Some m => update (setSort m)
      | None => ret tt
      end
  | None => ret tt
  end.

(** The effect that runs once, after the first render. *)
Definition loadEffect : Stmt unit :=
  tryCatch loadTodos;; tryCatch loadFilter;; tryCatch loadSort.
End Load.

(** ** Definitions used by the properties *)

(** Sample tasks and states for the closed instances below. *)
Definition milk : Todo := mkTodo (lit "id-1") (lit "Buy milk") true (Some (lit "2024-01-01")).
Definition bob : Todo := mkTodo (lit "id-2") (lit "Call Bob") false None.
Definition rent : Todo := mkTodo (lit "id-3") (lit "Pay rent") true (Some (lit "2024-01-05")).

Definition stateOf (l : list Todo) : AppState :=
  mkState l [] [] FAll Manual None [] None None.

(** The due date a submitted form gives the new task. *)
Definition dueOfInput (due : option jsstring) : option jsstring :=
  d ← due; if truthyStr d then Some d else None.

(** A run of [add] calls, oldest first. *)
Definition addAll (calls : list (jsstring * option jsstring * IdSource))
    (s : AppState) : AppState :=
  foldl (fun acc '(x, due, e) => add x due e acc) s calls.

(** The percentage as a function of the two counts the source computes it
    from. *)
Definition pctOf (total remaining : nat) : Number :=
  if (total =? 0)%nat then numOfZ 0
  else
    Math_round
      (numMul
         (numDiv (numOfZ (Z.of_nat total - Z.of_nat remaining))
                 (numOfZ (Z.of_nat total)))
         (numOfZ 100)).

(** Following the specification's words: [round(100 * (total - remaining) /
    total)] in exact arithmetic, a half going up, and 0 when [total] is 0. *)
Definition exactPercent (total remaining : nat) : Z :=
  if (total =? 0)%nat then 0
  else
    (2 * (100 * (Z.of_nat total - Z.of_nat remaining)) + Z.of_nat total)
    / (2 * Z.of_nat total).

#[global] Instance Number_eq_dec : EqDecision Number.
Proof. unfold Number. solve_decision. Defined.

(** Below 40 tasks the source's floating-point computation and the exact
    rounding agree. *)
Definition agreeUpTo (bound : nat) : bool :=
  forallb
    (fun total =>
       forallb
         (fun remaining =>
            bool_decide (pctOf total remaining = numOfZ (exactPercent total remaining)))
         (seq 0 (S total)))
    (seq 0 bound).

(** Forty tasks with unique ids, the first 23 of them done. *)
Definition fortyTasks : list Todo :=
  (fun k => mkTodo (lit "id-" ++ natToString k) (lit "task") (k <? 23)%nat None)
    <$> seq 0 40.

(** Lexicographic order on code units. *)
Inductive lexLt : jsstring → jsstring → Prop :=
| lexLt_nil y b : lexLt [] (y :: b)
| lexLt_head x y a b : (x < y)%N → lexLt (x :: a) (y :: b)
| lexLt_tail x a b : lexLt a b → lexLt (x :: a) (x :: b).

(** The flag as the specification words it: the due date is present, the
    task is not done and the date is strictly before today. *)
Definition overdueAsStated (today : jsstring) (t : Todo) : Prop :=
  ∃ d, dueDate t = Some d ∧ done t = false ∧ lexLt d today.

Definition validFilterLiteral (v : jsstring) : Prop :=
  v = lit "all" ∨ v = lit "active" ∨ v = lit "completed".

Definition validSortLiteral (v : jsstring) : Prop :=
  v = lit "manual" ∨ v = lit "due" ∨ v = lit "status".

(** The stored tasks value cannot be used: the read fails, the key is
    missing, the value is the empty string, it is not JSON, or it is JSON
    for something that is not an array. *)
Definition tasksUnusable (getItem : jsstring → Completion (option jsstring))
    (JSON_parse : jsstring → Completion JSValue) : Prop :=
  getItem STORAGE_KEYS.todos = Throw ∨
  getItem STORAGE_KEYS.todos = Normal None ∨
  getItem STORAGE_KEYS.todos = Normal (Some []) ∨
  ∃ str, getItem STORAGE_KEYS.todos = Normal (Some str) ∧
         (JSON_parse str = Throw ∨
          ∃ v, JSON_parse str = Normal v ∧ Array_isArray v = false).

(** The operations of the task store. *)
Inductive Op :=
| OpAdd (x : jsstring) (due : option jsstring) (e : IdSource)
| OpToggle (i : jsstring)
| OpDelete (i : jsstring)
| OpEditCommit (i x : jsstring)
| OpClearCompleted
| OpUndo
| OpDismissUndo.

Definition applyOp (op : Op) (s : AppState) : AppState :=
  match op with
  | OpAdd x due e => add x due e s
  | OpToggle i => toggleTodo i s
  | OpDelete i => deleteTodo i s
  | OpEditCommit i x => editCommit i x s
  | OpClearCompleted => clearCompleted s
  | OpUndo => undo s
  | OpDismissUndo => dismissUndo s
  end.

(** The precondition on the generator: the id it returns is not in the
    collection. *)
Definition freshIn (op : Op) (s : AppState) : Prop :=
  match op with
  | OpAdd _ _ e => safeId e ∉ id <$> todos s
  | _ => True
  end.

Definition run (ops : list Op) (s : AppState) : AppState :=
  foldl (fun acc op => applyOp op acc) s ops.

(** Every [add] of the run meets the precondition in the state it runs in. *)
Fixpoint freshAlong (ops : list Op) (s : AppState) : Prop :=
  match ops with
  | [] => True
  | op :: ops' => freshIn op s ∧ freshAlong ops' (applyOp op s)
  end.

Definition uniqueIds (l : list Todo) : Prop := NoDup (id <$> l).

(** The tasks waiting in the undo buffer. *)
Definition buffered (s : AppState) : list Todo := default [] (undoStack s).

(** The invariant that the operations maintain together: ids are unique in
    the collection and in the undo buffer. *)
Definition storeInv (s : AppState) : Prop :=
  uniqueIds (todos s) ∧ uniqueIds (buffered s).

Definition freshSource (i : jsstring) : IdSource := mkIdSource true i [].

(** The state after [clearCompleted] on two done tasks with the same id. *)
Definition twiceBuffered : AppState :=
  mkState [] [] [] FAll Manual None []
          (Some [milk; milk]) (Some (lit "Cleared 2 completed items")).

Definition sampleRun : list Op :=
  [ OpToggle (lit "id-2");
    OpClearCompleted;
    OpAdd (lit " Walk dog ") (Some (lit "2024-02-01")) (freshSource (lit "id-4"));
    OpEditCommit (lit "id-4") (lit "Walk the dog");
    OpUndo;
    OpDelete (lit "id-1");
    OpAdd (lit "Buy milk") None (freshSource (lit "id-1"));
    OpUndo;
    OpEditCommit (lit "id-3") (lit "   ");
    OpDismissUndo ].

(** The comparison of code units as a comparator. It stands for the host's
    collation in the closed instances below. *)
Definition codeUnitOrder (a b : jsstring) : Z :=
  match codeUnitCompare a b with Lt => -1 | Eq => 0 | Gt => 1 end.

Definition isDigit (c : N) : bool := ((48 <=? c) && (c <=? 57))%N.

(** A date in the form [YYYY-MM-DD]. *)
Definition isIsoDate (d : jsstring) : bool :=
  match d with
  | [y1; y2; y3; y4; h1; m1; m2; h2; d1; d2] =>
      isDigit y1 && isDigit y2 && isDigit y3 && isDigit y4 && (h1 =? 45)%N &&
      isDigit m1 && isDigit m2 && (h2 =? 45)%N && isDigit d1 && isDigit d2
  | _ => false
  end.

(** The due date of a task is missing, empty or in the form [YYYY-MM-DD]. *)
Definition okDue (t : Todo) : Prop := dueKey t = [] ∨ isIsoDate (dueKey t) = true.

#[global] Instance okDue_dec t : Decision (okDue t).
Proof. unfold okDue. apply _. Defined.

(** The comparator does not put [x] after [y]. *)
Definition notAfter {A : Type} (cmp : A → A → Z) (x y : A) : Prop := cmp x y ≤ 0.

(** [y] is in the class [first] only if [x] is. *)
Definition classOrder {A : Type} (first : A → bool) (x y : A) : Prop :=
  first y = true → first x = true.

(** The order the [due] mode aims at: tasks with a non-empty due date by
    ascending date in code-unit order, then the tasks without one; a tie
    by ascending text under the collation [lc]. *)
Definition dueOrder (lc : jsstring → jsstring → Z) (a b : Todo) : Prop :=
  match truthyDue a, truthyDue b with
  | true, true =>
      lexLt (dueKey a) (dueKey b) ∨
      (dueKey a = dueKey b ∧ lc (text a) (text b) ≤ 0)
  | true, false => True
  | false, true => False
  | false, false => lc (text a) (text b) ≤ 0
  end.

(** The three tasks of the specification's example. *)
Definition dueJan5 (i x : jsstring) (dn : bool) : Todo :=
  mkTodo i x dn (Some (lit "2024-01-05")).
Definition dueJan1 (i x : jsstring) (dn : bool) : Todo :=
  mkTodo i x dn (Some (lit "2024-01-01")).
Definition noDue (i x : jsstring) (dn : bool) : Todo := mkTodo i x dn None.

(** The filter and the sort as functions on lists. *)
Definition project (localeCompare : jsstring → jsstring → Z)
    (f : Filter) (m : SortMode) (l : list Todo) : list Todo :=
  match m with
  | Due => sortBy (compareDue localeCompare) (filter (keep f) l)
  | Status => sortBy (compareStatus localeCompare) (filter (keep f) l)
  | Manual => filter (keep f) l
  end.

(** The order of the [due] mode with "has a due date" read as "the field
    holds a string", as the specification words it. *)
Definition dueOrderAsStated (lc : jsstring → jsstring → Z) (a b : Todo) : Prop :=
  match dueDate a, dueDate b with
  | Some x, Some y => lexLt x y ∨ (x = y ∧ lc (text a) (text b) ≤ 0)
  | Some _, None => True
  | None, Some _ => False
  | None, None => lc (text a) (text b) ≤ 0
  end.

Definition waterPlants : Todo :=
  mkTodo (lit "id-9") (lit "Water plants") false (Some []).

Definition withDue (d : option jsstring) (t : Todo) : Todo :=
  mkTodo (id t) (text t) (done t) d.

(** The due date field does not hold the empty string. *)
Definition dueNotEmpty (t : Todo) : Prop := dueDate t ≠ Some [].

(** The task with an empty due date replaced by a missing one. *)
Definition absentIfEmpty (t : Todo) : Todo :=
  if truthyDue t then t else withDue None t.

(** A second task that carries the id of [milk]. *)
Definition milkTwin : Todo := mkTodo (lit "id-1") (lit "Feed cat") false None.

(** An id source that returns an id already given out. *)
Definition staleSource : IdSource := mkIdSource true (lit "id-1") [].

(** ** The rest of the component *)

(** The [disabled] attribute of the Clear Completed button:
    [todos.every(t => !t.done)]. *)
Definition clearDisabled (s : AppState) : bool :=
  forallb (fun t => negb (done t)) (todos s).

(** The snackbar with the undo button is rendered when [undoMessage] is
    truthy. *)
Definition snackbarShown (s : AppState) : bool :=
  match undoMessage s with
  | Some m => truthyStr m
  | None => false
  end.

(** The undo buffer and its message go together: both are null, or the
    buffer holds a task and the message is not empty. *)
Definition undoCoupled (s : AppState) : Prop :=
  match undoStack s, undoMessage s with
  | None, None => True
  | Some stack, Some msg => stack ≠ [] ∧ msg ≠ []
  | _, _ => False
  end.

(** The edit row of a task is rendered when [editingId === todo.id]. *)
Definition editRowShown (s : AppState) (t : Todo) : bool :=
  bool_decide (editingId s = Some (id t)).

(** The text of a task is not empty and has no white space at either end. *)
Definition textOk (t : Todo) : Prop := text t ≠ [] ∧ trim (text t) = text t.

(** The order of the [status] mode: tasks that are not done first, a tie by
    ascending text under the collation [lc]. *)
Definition statusOrder (lc : jsstring → jsstring → Z) (a b : Todo) : Prop :=
  match done a, done b with
  | false, true => True
  | true, false => False
  | _, _ => lc (text a) (text b) ≤ 0
  end.

(** The strings of the two preferences ([Filter] and [SortMode] are types of
    string literals in the source). *)
Definition filterLiteral (f : Filter) : jsstring :=
  match f with
  | FAll => lit "all"
  | FActive => lit "active"
  | FCompleted => lit "completed"
  end.

Definition sortLiteral (m : SortMode) : jsstring :=
  match m with
  | Manual => lit "manual"
  | Due => lit "due"
  | Status => lit "status"
  end.

(** A working [localStorage]: a finite map from keys to strings. *)
Abbreviation Storage := (gmap jsstring jsstring).

Definition getItemOf (st : Storage) (k : jsstring) : Completion (option jsstring) :=
  Normal (st !! k).

Definition setItem (k v : jsstring) (st : Storage) : Storage := <[k := v]> st.

(** The two effects that persist the filter and the sort mode. *)
Definition saveFilterEffect (s : AppState) (st : Storage) : Storage :=
  setItem STORAGE_KEYS.filter (filterLiteral (filter_ s)) st.

Definition saveSortEffect (s : AppState) (st : Storage) : Storage :=
  setItem STORAGE_KEYS.sort (sortLiteral (sort_ s)) st.

(** *** The earlier variant of the component (the second [App] of the file) *)

Module Legacy.

(** A task; [id] is the Number [Date.now()] returned, a count of
    milliseconds. *)
Record Todo := mkTodo {
  id : Z;
  text : jsstring;
  done : bool
}.

Record AppState := mkState {
  todos : list Todo;
  newTodo : jsstring
}.

Definition setTodos (l : list Todo) (s : AppState) : AppState :=
  mkState l (newTodo s).
Definition setNewTodo (v : jsstring) (s : AppState) : AppState :=
  mkState (todos s) v.

(** [addTodo]; [now] is the value of [Date.now()]. *)
Definition addTodo (now : Z) (s : AppState) : AppState :=
  if bool_decide (trim (newTodo s) = []) then s
  else
    let newTask := mkTodo now (trim (newTodo s)) false in
    setNewTodo [] (setTodos (todos s ++ [newTask]) s).

Definition toggleTodo (i : Z) (s : AppState) : AppState :=
  setTodos
    ((fun t => if bool_decide (id t = i)
               then mkTodo (id t) (text t) (negb (done t)) else t)
       <$> todos s) s.

Definition deleteTodo (i : Z) (s : AppState) : AppState :=
  setTodos (filter (fun t => id t <> i) (todos s)) s.

(** Typing a text and submitting the form. *)
Definition add (x : jsstring) (now : Z) (s : AppState) : AppState :=
  addTodo now (setNewTodo x s).

End Legacy.

(** * Properties *)

(** ** Strings *)

Lemma truthyStr_length (x : jsstring) : truthyStr x = (0 <? length x)%nat.
Proof. by destruct x. Qed.

Lemma truthyStr_false (x : jsstring) : truthyStr x = false ↔ x = [].
Proof. by destruct x. Qed.

Lemma length_eqb_0 (x : jsstring) : (length x =? 0)%nat = negb (truthyStr x).
Proof. by destruct x. Qed.

Lemma trim_examples :
  trim (lit "  Buy milk  ") = lit "Buy milk" ∧
  trim (lit "   ") = [] ∧
  trim [] = [] ∧
  trim ([9; 160; 8232] ++ lit "a b" ++ [10; 12288; 65279])%N = lit "a b".
Proof. repeat split. Qed.

Lemma natToString_examples :
  natToString 0 = lit "0" ∧ natToString 7 = lit "7" ∧ natToString 120 = lit "120".
Proof. repeat split. Qed.

(** ** Finding a task by its id *)

Lemma find_hasId_Some i l t :
  List.find (hasId i) l = Some t → t ∈ l ∧ id t = i.
Proof.
  intros Hf. apply find_some in Hf as [Hin Hid].
  split; [by apply list_elem_of_In|].
  by apply bool_decide_eq_true in Hid.
Qed.

Lemma find_hasId_None i l :
  List.find (hasId i) l = None ↔ i ∉ id <$> l.
Proof.
  induction l as [|t l IH]; simpl.
  - split; [intros _; apply not_elem_of_nil|done].
  - unfold hasId at 1. rewrite not_elem_of_cons. case_bool_decide as Ht.
    + split; [done|]. by intros [? _].
    + rewrite IH. split; [intros ?; split; [congruence|done] | by intros [_ ?]].
Qed.

Lemma find_hasId_is_Some i l :
  i ∈ id <$> l → ∃ t, List.find (hasId i) l = Some t.
Proof.
  intros Hin. destruct (List.find (hasId i) l) as [t|] eqn:Hf; [by eexists|].
  by apply find_hasId_None in Hf.
Qed.

Lemma filter_other_ids_absent i (l : list Todo) :
  i ∉ id <$> l → filter (fun t => id t <> i) l = l.
Proof.
  induction l as [|t l IH]; [done|].
  rewrite fmap_cons, not_elem_of_cons. intros [Hne Hl].
  rewrite filter_cons_True by done. by rewrite IH.
Qed.

Lemma ids_filter_other i (l : list Todo) :
  i ∉ id <$> filter (fun t => id t <> i) l.
Proof.
  rewrite list_elem_of_fmap. intros (t & -> & Ht).
  apply list_elem_of_filter in Ht as [Hne _]. done.
Qed.

Lemma find_hasId_app i (l1 l2 : list Todo) :
  List.find (hasId i) (l1 ++ l2) =
  match List.find (hasId i) l1 with
  | Some t => Some t
  | None => List.find (hasId i) l2
  end.
Proof.
  induction l1 as [|t l1 IH]; simpl; [done|]. by destruct (hasId i t).
Qed.

Lemma find_hasId_filter_other i j (l : list Todo) :
  j ≠ i →
  List.find (hasId j) (filter (fun t => id t <> i) l) = List.find (hasId j) l.
Proof.
  intros Hne. induction l as [|t l IH]; [done|].
  destruct (decide (id t = i)) as [Heq|Hti].
  - rewrite filter_cons_False by tauto. simpl. unfold hasId at 2.
    rewrite bool_decide_eq_false_2 by congruence. exact IH.
  - rewrite filter_cons_True by done. simpl. by rewrite IH.
Qed.

(** The first task with a given id splits a collection with unique ids. *)
Lemma filter_other_ids_split i (l : list Todo) t :
  NoDup (id <$> l) → List.find (hasId i) l = Some t →
  ∃ l1 l2, l = l1 ++ t :: l2 ∧ filter (fun u => id u <> i) l = l1 ++ l2.
Proof.
  induction l as [|u l IH]; [done|].
  rewrite fmap_cons, NoDup_cons. intros [Hu Hnd]. simpl.
  unfold hasId at 1. case_bool_decide as Hi.
  - intros [= ->]. exists [], l. split; [done|].
    rewrite filter_cons_False by naive_solver.
    simpl. apply filter_other_ids_absent. by rewrite <- Hi.
  - intros Hf. destruct (IH Hnd Hf) as (l1 & l2 & -> & Hfl).
    exists (u :: l1), l2. split; [done|].
    rewrite filter_cons_True by done. by rewrite Hfl.
Qed.

(** ** The task store *)

Lemma add_unfold (x : jsstring) (due : option jsstring) (e : IdSource)
    (s : AppState) :
  undoStack (add x due e s) = undoStack s ∧
  undoMessage (add x due e s) = undoMessage s ∧
  todos (add x due e s) =
    match trim x with
    | [] => todos s
    | _ :: _ => todos s ++ [mkTodo (safeId e) (trim x) false (dueOfInput due)]
    end.
Proof.
  unfold add, addTodo, onDueChange, onInputChange. simpl.
  rewrite <- truthyStr_length.
  destruct (trim x) as [|c r] eqn:Htrim; simpl; [done|].
  by destruct due as [[|d ds]|].
Qed.

(** [add] does not compare the id it receives with the ids of the
    collection: when the generator returns an id that is in use, the new
    task shares it. *)
Lemma add_id_not_checked :
  uniqueIds (todos (stateOf [milk])) ∧
  id <$> todos (add (lit "Buy bread") None staleSource (stateOf [milk]))
    = [lit "id-1"; lit "id-1"] ∧
  (∃ t, t ∈ todos (stateOf [milk]) ∧
        last (todos (add (lit "Buy bread") None staleSource (stateOf [milk])))
          = Some (mkTodo (id t) (lit "Buy bread") false None)) ∧
  ¬ uniqueIds (todos (add (lit "Buy bread") None staleSource (stateOf [milk]))).
Proof.
  split; [apply (bool_decide_unpack _); vm_compute; reflexivity|].
  split; [vm_compute; reflexivity|]. split.
  - exists milk. split; [apply list_elem_of_here|vm_compute; reflexivity].
  - unfold uniqueIds.
    replace (id <$> todos (add (lit "Buy bread") None staleSource (stateOf [milk])))
      with [lit "id-1"; lit "id-1"] by (vm_compute; reflexivity).
    rewrite NoDup_cons. intros [Hnot _]. apply Hnot, list_elem_of_here.
Qed.

(** C1 (amended). A call [add(text, dueDate?)] leaves the undo buffer alone;
    when [text.trim()] is empty it leaves the collection unchanged; otherwise
    it appends exactly one task, whose id is the one [safeId] returned for
    this call, whose text is [text.trim()], which is not done and carries
    the given due date (none for an empty or missing date): the length grows
    by one, the new task is last and every task already there keeps its
    place. The id is not compared with those of the collection: it differs
    from all of them exactly when the generator returned an id that is not
    in the collection, and a collection with unique ids keeps unique ids
    exactly in that case. *)
Theorem add_appends_one_task (x : jsstring) (due : option jsstring)
    (e : IdSource) (s : AppState) :
  let s' := add x due e s in
  let newTask := mkTodo (safeId e) (trim x) false (dueOfInput due) in
  undoStack s' = undoStack s ∧ undoMessage s' = undoMessage s ∧
  match trim x with
  | [] => todos s' = todos s
  | _ :: _ =>
      todos s' = todos s ++ [newTask] ∧
      length (todos s') = S (length (todos s)) ∧
      last (todos s') = Some newTask ∧
      (∀ k t, todos s !! k = Some t → todos s' !! k = Some t) ∧
      ((∀ t, t ∈ todos s → id t ≠ id newTask) ↔ safeId e ∉ id <$> todos s) ∧
      (uniqueIds (todos s) →
       (uniqueIds (todos s') ↔ safeId e ∉ id <$> todos s))
  end.
Proof.
  intros s' newTask. subst s' newTask.
  destruct (add_unfold x due e s) as (Hst & Hmsg & Htodos).
  split; [exact Hst|]. split; [exact Hmsg|].
  rewrite Htodos. destruct (trim x) as [|c r]; [done|].
  split; [done|]. split; [rewrite length_app; simpl; lia|].
  split; [apply last_snoc|].
  split; [intros k t Hk; by apply lookup_app_l_Some|]. split.
  - simpl. split.
    + intros Hall Hin. apply list_elem_of_fmap in Hin as (t & Hid & Ht).
      by apply (Hall t Ht).
    + intros Hnew t Ht Heq. apply Hnew. rewrite <- Heq.
      by apply list_elem_of_fmap_2.
  - intros Hnd. unfold uniqueIds in *. rewrite fmap_app, NoDup_app. simpl. split.
    + intros (_ & Hdisj & _) Hin. apply (Hdisj _ Hin), list_elem_of_here.
    + intros Hnew. split; [done|]. split; [|apply NoDup_singleton].
      intros j Hj Hsing. apply list_elem_of_singleton in Hsing as ->. done.
Qed.

Lemma addAll_length calls s :
  length (todos (addAll calls s)) =
  (length (todos s) +
   length (filter (fun c => trim (fst (fst c)) <> []) calls))%nat.
Proof.
  revert s. induction calls as [|[[x due] e] calls IH]; intros s; simpl.
  - lia.
  - unfold addAll in *. simpl. rewrite IH.
    pose proof (add_unfold x due e s) as (_ & _ & Hadd). rewrite Hadd.
    destruct (trim x) as [|c r] eqn:Htrim.
    + rewrite filter_cons_False by (simpl; rewrite Htrim; tauto). done.
    + rewrite filter_cons_True by (simpl; rewrite Htrim; done).
      rewrite length_app. simpl. lia.
Qed.

(** The scenario of the specification: two tasks are added, the first is
    completed, and each filter shows its task. *)
Lemma scenario_add_toggle_filter :
  let s2 := add (lit "Call Bob") None (freshSource (lit "id-2"))
              (add (lit "Buy milk") (Some (lit "2024-01-01"))
                 (freshSource (lit "id-1")) initialState) in
  let s3 := toggleTodo (lit "id-1") s2 in
  text <$> filteredTodos codeUnitOrder (setFilter FActive s3) = [lit "Call Bob"] ∧
  text <$> filteredTodos codeUnitOrder (setFilter FCompleted s3) = [lit "Buy milk"] ∧
  toggleTodo (lit "id-1") s3 = s2.
Proof. vm_compute. repeat split. Qed.

(** C2. Committing an edit whose text trims to the empty string leaves the
    same collection, the same undo buffer and the same undo message as
    deleting the task. *)
Theorem editCommit_empty_as_delete (s : AppState) (i x : jsstring) :
  trim x = [] →
  todos (editCommit i x s) = todos (deleteTodo i s) ∧
  undoStack (editCommit i x s) = undoStack (deleteTodo i s) ∧
  undoMessage (editCommit i x s) = undoMessage (deleteTodo i s).
Proof.
  intros Htrim. unfold editCommit, saveEditing, deleteTodo. simpl.
  rewrite Htrim. simpl.
  destruct (List.find (hasId i) (todos s)) as [removed|] eqn:Hf; simpl.
  - done.
  - split; [|done]. apply filter_other_ids_absent. by apply find_hasId_None.
Qed.

Lemma editCommit_empty_as_delete_witness :
  todos (editCommit (lit "id-2") (lit "  ") (stateOf [milk; bob])) = [milk] ∧
  todos (editCommit (lit "id-2") (lit "  ") (stateOf [milk; bob])) =
    todos (deleteTodo (lit "id-2") (stateOf [milk; bob])) ∧
  undoStack (editCommit (lit "id-2") (lit "  ") (stateOf [milk; bob])) =
    undoStack (deleteTodo (lit "id-2") (stateOf [milk; bob])) ∧
  undoMessage (editCommit (lit "id-2") (lit "  ") (stateOf [milk; bob])) =
    undoMessage (deleteTodo (lit "id-2") (stateOf [milk; bob])).
Proof.
  split; [vm_compute; reflexivity|].
  apply (editCommit_empty_as_delete (stateOf [milk; bob]) (lit "id-2") (lit "  ")).
  vm_compute. reflexivity.
Defined.

(** When two tasks share the deleted id, [deleteTodo] removes both and keeps
    only the first in the undo buffer, so that [undo] brings back one of
    them: the other is lost although the set of ids is the same. *)
Lemma delete_then_undo_loses_twin :
  lit "id-1" ∈ id <$> todos (stateOf [milk; milkTwin; bob]) ∧
  todos (undo (deleteTodo (lit "id-1") (stateOf [milk; milkTwin; bob])))
    = [bob; milk] ∧
  (∀ j, j ∈ id <$> todos (undo (deleteTodo (lit "id-1")
                                  (stateOf [milk; milkTwin; bob])))
        ↔ j ∈ id <$> todos (stateOf [milk; milkTwin; bob])) ∧
  milkTwin ∈ todos (stateOf [milk; milkTwin; bob]) ∧
  (milkTwin ∉ todos (undo (deleteTodo (lit "id-1") (stateOf [milk; milkTwin; bob])))) ∧
  ¬ (todos (undo (deleteTodo (lit "id-1") (stateOf [milk; milkTwin; bob])))
     ≡ₚ todos (stateOf [milk; milkTwin; bob])).
Proof.
  assert (Hafter : todos (undo (deleteTodo (lit "id-1")
                                  (stateOf [milk; milkTwin; bob]))) = [bob; milk])
    by (vm_compute; reflexivity).
  rewrite Hafter.
  split; [apply list_elem_of_here|]. split; [reflexivity|]. split.
  { intros j. simpl. rewrite !elem_of_cons, !elem_of_nil.
    change (id milkTwin) with (id milk). tauto. }
  split; [apply list_elem_of_further, list_elem_of_here|]. split.
  - intros Hin. apply elem_of_cons in Hin as [Heq|Hin]; [discriminate Heq|].
    apply list_elem_of_singleton in Hin. discriminate Hin.
  - intros Hperm. apply Permutation_length in Hperm. discriminate Hperm.
Qed.

(** C3 (amended). Deleting a task that is present and undoing at once gives
    back the same set of ids, and looking up any id finds the task it found
    before; the deleted task (the first one with that id) is put back at the
    end of the collection; the undo buffer and its message are empty
    afterwards. When no two tasks of the collection share an id, the
    collection comes back with all its tasks, up to their order. *)
Theorem delete_then_undo_restores (s : AppState) (i : jsstring) :
  i ∈ id <$> todos s →
  let s' := undo (deleteTodo i s) in
  (∀ j, j ∈ id <$> todos s' ↔ j ∈ id <$> todos s) ∧
  (∀ j, List.find (hasId j) (todos s') = List.find (hasId j) (todos s)) ∧
  (NoDup (id <$> todos s) → todos s' ≡ₚ todos s) ∧
  (∃ removed,
      List.find (hasId i) (todos s) = Some removed ∧
      todos s' = filter (fun t => id t <> i) (todos s) ++ [removed]) ∧
  undoStack s' = None ∧ undoMessage s' = None.
Proof.
  intros Hin s'. subst s'.
  destruct (find_hasId_is_Some _ _ Hin) as [removed Hf].
  destruct (find_hasId_Some _ _ _ Hf) as [Hrem Hid].
  unfold deleteTodo. rewrite Hf. unfold undo. simpl.
  assert (Hrestored :
    filter (fun t => id t ∉ (list_to_set
              (id <$> filter (fun t => id t <> i) (todos s)) : gset jsstring))
           [removed] = [removed]).
  { rewrite filter_cons_True; [done|].
    rewrite elem_of_list_to_set, Hid. apply ids_filter_other. }
  rewrite Hrestored.
  split; [|split; [|split; [|split; [by exists removed|done]]]].
  - intros j. rewrite fmap_app, elem_of_app. simpl. rewrite list_elem_of_singleton.
    rewrite !list_elem_of_fmap. split.
    + intros [(t & -> & Ht)| ->].
      * apply list_elem_of_filter in Ht as [_ Ht]. by exists t.
      * by exists removed.
    + intros (t & -> & Ht). destruct (decide (id t = i)) as [Heq|Hne].
      * right. congruence.
      * left. exists t. split; [done|]. by apply list_elem_of_filter.
  - intros j. rewrite find_hasId_app. destruct (decide (j = i)) as [->|Hne].
    + rewrite (proj2 (find_hasId_None _ _) (ids_filter_other i (todos s))).
      rewrite Hf. simpl. unfold hasId. by rewrite bool_decide_eq_true_2.
    + rewrite find_hasId_filter_other by done.
      destruct (List.find (hasId j) (todos s)); [done|].
      simpl. unfold hasId. rewrite bool_decide_eq_false_2 by congruence. done.
  - intros Hnd. destruct (filter_other_ids_split _ _ _ Hnd Hf)
      as (l1 & l2 & Hl & Hfl).
    rewrite Hfl, Hl. rewrite <- app_assoc.
    apply Permutation_app_head. symmetry. apply Permutation_cons_append.
Qed.

Lemma delete_then_undo_restores_witness :
  todos (undo (deleteTodo (lit "id-1") (stateOf [milk; bob; rent]))) = [bob; rent; milk] ∧
  todos (undo (deleteTodo (lit "id-1") (stateOf [milk; bob; rent])))
    ≡ₚ todos (stateOf [milk; bob; rent]) ∧
  undoStack (undo (deleteTodo (lit "id-1") (stateOf [milk; bob; rent]))) = None ∧
  undoMessage (undo (deleteTodo (lit "id-1") (stateOf [milk; bob; rent]))) = None.
Proof.
  assert (Hin : lit "id-1" ∈ id <$> todos (stateOf [milk; bob; rent])).
  { simpl. apply list_elem_of_here. }
  assert (Hnd : NoDup (id <$> todos (stateOf [milk; bob; rent]))).
  { apply (bool_decide_unpack _). vm_compute. reflexivity. }
  destruct (delete_then_undo_restores (stateOf [milk; bob; rent]) (lit "id-1") Hin)
    as (_ & _ & Hperm & _ & Hstack & Hmsg).
  split; [vm_compute; reflexivity|]. split; [exact (Hperm Hnd)|]. split; assumption.
Defined.

Lemma clearedMessage_singular : clearedMessage 1 = lit "Cleared 1 completed item".
Proof. reflexivity. Qed.

Lemma clearedMessage_plural (n : nat) :
  n ≠ 1%nat →
  clearedMessage n = lit "Cleared " ++ natToString n ++ lit " completed items".
Proof.
  intros Hn. unfold clearedMessage.
  destruct (Nat.eqb_spec n 1) as [|_]; [done|]. reflexivity.
Qed.

(** C4. [clearCompleted] keeps the tasks that are not done, in their order,
    and removes the others. When some task was done, the undo buffer becomes
    the sequence of removed tasks and the message reads
    [Cleared <n> completed items], with [item] for [n = 1]; when none was,
    the buffer and the message stay as they were. *)
Theorem clearCompleted_removes_done (s : AppState) :
  let s' := clearCompleted s in
  let removed := filter (fun t => done t = true) (todos s) in
  let n := length removed in
  todos s' = filter (fun t => done t = false) (todos s) ∧
  sublist (todos s') (todos s) ∧
  (∀ t, t ∈ todos s' ↔ t ∈ todos s ∧ done t = false) ∧
  todos s' ++ removed ≡ₚ todos s ∧
  match removed with
  | [] => undoStack s' = undoStack s ∧ undoMessage s' = undoMessage s
  | _ :: _ =>
      undoStack s' = Some removed ∧
      undoMessage s' =
        Some (if decide (n = 1%nat) then lit "Cleared 1 completed item"
              else lit "Cleared " ++ natToString n ++ lit " completed items")
  end.
Proof.
  intros s' removed n. subst s' removed n. unfold clearCompleted.
  split; [by destruct (0 <? _)%nat|].
  split; [destruct (0 <? _)%nat; apply sublist_filter|].
  split.
  { intros t. destruct (0 <? _)%nat; simpl; rewrite list_elem_of_filter; tauto. }
  split.
  { assert (Heq : filter (fun t => done t = true) (todos s)
                  = filter (fun t => ¬ done t = false) (todos s)).
    { apply list_filter_iff. intros t. destruct (done t); naive_solver. }
    rewrite Heq. destruct (0 <? _)%nat; simpl; apply filter_app_complement. }
  destruct (filter (fun t => done t = true) (todos s)) as [|t r] eqn:Hrem.
  - done.
  - change (0 <? length (t :: r))%nat with true. cbv iota.
    split; [done|]. cbn [undoMessage setTodos setUndoMessage]. f_equal.
    case_decide as Hn.
    + rewrite Hn. apply clearedMessage_singular.
    + by apply clearedMessage_plural.
Qed.

(** ** Counters *)

Lemma completionPct_pctOf (s : AppState) :
  completionPct s = pctOf (length (todos s)) (remainingCount s).
Proof. reflexivity. Qed.

(** The counters do not read the filter or the sort mode. *)
Lemma counters_ignore_filter (f : Filter) (m : SortMode) (s : AppState) :
  remainingCount (setSort m (setFilter f s)) = remainingCount s ∧
  completionPct (setSort m (setFilter f s)) = completionPct s ∧
  remainingCount s = length (filter (fun t => done t = false) (todos s)).
Proof. done. Qed.

Lemma completionPct_empty : completionPct initialState = numOfZ 0.
Proof. reflexivity. Qed.

Lemma completionPct_one_of_three :
  completionPct (stateOf [milk; bob; withDone false rent]) = numOfZ 33.
Proof. vm_compute. reflexivity. Qed.

Lemma completionPct_exact_below_40 (s : AppState) :
  (length (todos s) < 40)%nat →
  completionPct s = numOfZ (exactPercent (length (todos s)) (remainingCount s)).
Proof.
  intros Hlen. rewrite completionPct_pctOf.
  assert (Hrem : (remainingCount s ≤ length (todos s))%nat)
    by apply length_filter.
  assert (Hall : agreeUpTo 40 = true) by (vm_compute; reflexivity).
  unfold agreeUpTo in Hall. rewrite forallb_forall in Hall.
  assert (Hrow := Hall (length (todos s)) ltac:(apply in_seq; lia)).
  rewrite forallb_forall in Hrow.
  assert (Hcell := Hrow (remainingCount s) ltac:(apply in_seq; lia)).
  by apply bool_decide_eq_true in Hcell.
Qed.

(** C6 (divergence). With 40 tasks of which 23 are done, 17 remain and the
    exact percentage is 57.5, which rounds to 58; the source evaluates
    [(23 / 40) * 100] in binary64 to a Number just below 57.5 and
    [completionPct] is 57. *)
Theorem completionPct_forty_tasks :
  NoDup (id <$> fortyTasks) ∧
  length (todos (stateOf fortyTasks)) = 40%nat ∧
  remainingCount (stateOf fortyTasks) = 17%nat ∧
  exactPercent 40 17 = 58 ∧
  completionPct (stateOf fortyTasks) = numOfZ 57 ∧
  completionPct (stateOf fortyTasks) ≠ numOfZ (exactPercent 40 17).
Proof.
  split; [apply (bool_decide_unpack _); vm_compute; reflexivity|].
  repeat split; try (vm_compute; reflexivity).
  vm_compute. discriminate.
Qed.

(** ** The overdue flag *)

Lemma strLt_lexLt (a b : jsstring) : strLt a b = true ↔ lexLt a b.
Proof.
  unfold strLt. revert b. induction a as [|x a IH]; intros [|y b]; simpl.
  - split; [done|inversion 1].
  - split; [constructor|done].
  - split; [done|inversion 1].
  - destruct (N.compare_spec x y) as [->|Hlt|Hgt].
    + rewrite IH. split; [by constructor|].
      inversion 1; subst; [lia|done].
    + split; [by constructor|done].
    + split; [done|]. inversion 1; subst; lia.
Qed.

(** A task that is not done and whose due date field holds the empty string
    is not flagged, although the empty string is before every date. *)
Lemma isOverdue_empty_date_not_as_stated :
  isOverdue (lit "2024-01-01") waterPlants = false ∧
  overdueAsStated (lit "2024-01-01") waterPlants ∧
  ¬ (isOverdue (lit "2024-01-01") waterPlants = true
     ↔ overdueAsStated (lit "2024-01-01") waterPlants).
Proof.
  assert (Hst : overdueAsStated (lit "2024-01-01") waterPlants).
  { exists []. repeat split. constructor. }
  split; [reflexivity|]. split; [exact Hst|].
  intros [_ Hback]. specialize (Hback Hst). discriminate Hback.
Qed.

(** C7 (amended). A task is flagged overdue exactly when its due date is
    present and not the empty string, the task is not done, and the date is
    strictly before today in the lexicographic order of code units. So a
    done task is never flagged and neither is a task without a due date. *)
Theorem isOverdue_iff (today : jsstring) (t : Todo) :
  (isOverdue today t = true ↔
   ∃ d, dueDate t = Some d ∧ d ≠ [] ∧ done t = false ∧ lexLt d today) ∧
  (done t = true → isOverdue today t = false) ∧
  (dueDate t = None → isOverdue today t = false).
Proof.
  unfold isOverdue, truthyDue, dueKey.
  destruct t as [i x dn [d|]]; simpl.
  - destruct d as [|c d]; simpl.
    + split; [|by destruct dn]. split; [done|]. by intros (d & [= <-] & Hne & _).
    + destruct dn; simpl.
      * split; [|done]. split; [done|]. by intros (d' & _ & _ & Hdn & _).
      * rewrite strLt_lexLt. split; [|done]. split.
        -- intros Hlt. by exists (c :: d).
        -- by intros (d' & [= <-] & _ & _ & Hlt).
  - split; [|done]. split; [done|]. by intros (d & Hd & _).
Qed.

(** ** Loading *)

Lemma filterOfString_None v : ¬ validFilterLiteral v → filterOfString v = None.
Proof.
  unfold validFilterLiteral, filterOfString. intros Hv.
  repeat case_bool_decide; tauto.
Qed.

Lemma sortOfString_None v : ¬ validSortLiteral v → sortOfString v = None.
Proof.
  unfold validSortLiteral, sortOfString. intros Hv.
  repeat case_bool_decide; tauto.
Qed.

Section LoadProperties.
Variable getItem : jsstring → Completion (option jsstring).
Variable JSON_parse : jsstring → Completion JSValue.
Variable asTodo : JSValue → Todo.

(** A [try] block completes normally whatever its body does. *)
Lemma tryCatch_normal (c : Stmt unit) (s : AppState) :
  fst (tryCatch c s) = Normal tt.
Proof. reflexivity. Qed.

Lemma loadEffect_normal (s : AppState) :
  fst (loadEffect getItem JSON_parse asTodo s) = Normal tt.
Proof. reflexivity. Qed.

(** What the three blocks leave in the state. *)
Lemma loadEffect_todos (s : AppState) :
  todos (snd (loadEffect getItem JSON_parse asTodo s)) =
  todos (snd (loadTodos getItem JSON_parse asTodo s)).
Proof.
  unfold loadEffect, mbind, Stmt_bind, bind, tryCatch. simpl.
  unfold loadFilter, loadSort, mbind, Stmt_bind, bind, eval.
  destruct (getItem STORAGE_KEYS.filter) as [[v|]|];
    destruct (getItem STORAGE_KEYS.sort) as [[w|]|]; simpl;
    try destruct (filterOfString v); try destruct (sortOfString w); done.
Qed.

Lemma loadEffect_filter (s : AppState) :
  filter_ (snd (loadEffect getItem JSON_parse asTodo s)) =
  filter_ (snd (loadFilter getItem s)).
Proof.
  unfold loadEffect, mbind, Stmt_bind, bind, tryCatch. simpl.
  assert (Hsort : ∀ s0, filter_ (snd (loadSort getItem s0)) = filter_ s0).
  { intros s0. unfold loadSort, mbind, Stmt_bind, bind, eval.
    destruct (getItem STORAGE_KEYS.sort) as [[w|]|]; simpl;
      try destruct (sortOfString w); done. }
  assert (Htodos : ∀ s0, loadFilter getItem (snd (loadTodos getItem JSON_parse asTodo s0))
                         = (fst (loadFilter getItem s0),
                            setTodos (fun _ => todos (snd (loadTodos getItem JSON_parse asTodo s0)))
                              (snd (loadFilter getItem s0)))).
  { intros s0. unfold loadFilter, loadTodos, mbind, Stmt_bind, bind, eval.
    destruct (getItem STORAGE_KEYS.filter) as [[v|]|];
      destruct (getItem STORAGE_KEYS.todos) as [[[|c str]|]|]; simpl;
      try destruct (filterOfString v); simpl;
      try destruct (JSON_parse (c :: str)) as [parsed|]; simpl;
      try destruct (Array_isArray parsed); simpl; by destruct s0. }
  rewrite Hsort, Htodos. done.
Qed.

Lemma loadEffect_sort (s : AppState) :
  sort_ (snd (loadEffect getItem JSON_parse asTodo s)) =
  sort_ (snd (loadSort getItem s)).
Proof.
  unfold loadEffect, mbind, Stmt_bind, bind, tryCatch. simpl.
  unfold loadSort, loadFilter, loadTodos, mbind, Stmt_bind, bind, eval.
  destruct (getItem STORAGE_KEYS.sort) as [[w|]|];
    destruct (getItem STORAGE_KEYS.filter) as [[v|]|];
    destruct (getItem STORAGE_KEYS.todos) as [[[|c str]|]|]; simpl;
    try destruct (sortOfString w); try destruct (filterOfString v); simpl;
    try destruct (JSON_parse (c :: str)) as [parsed|]; simpl;
    try destruct (Array_isArray parsed); done.
Qed.
End LoadProperties.

(** C8. The load effect completes normally whatever the storage and the
    parser do. Started in the initial state: a tasks value that cannot be
    used leaves the task list empty, and a usable one is taken whole; the
    filter stays [all] unless the stored value is exactly one of the three
    literals, and the sort mode stays [manual] likewise; a stored literal is
    restored. *)
Theorem load_validates
    (getItem : jsstring → Completion (option jsstring))
    (JSON_parse : jsstring → Completion JSValue)
    (asTodo : JSValue → Todo) :
  let r := loadEffect getItem JSON_parse asTodo initialState in
  fst r = Normal tt ∧
  (tasksUnusable getItem JSON_parse → todos (snd r) = []) ∧
  (∀ str elems,
      getItem STORAGE_KEYS.todos = Normal (Some str) → str ≠ [] →
      JSON_parse str = Normal (JArr elems) →
      todos (snd r) = asTodo <$> elems) ∧
  ((∀ v, getItem STORAGE_KEYS.filter = Normal (Some v) → ¬ validFilterLiteral v) →
   filter_ (snd r) = FAll) ∧
  (∀ v, getItem STORAGE_KEYS.filter = Normal (Some v) →
        (v = lit "all" → filter_ (snd r) = FAll) ∧
        (v = lit "active" → filter_ (snd r) = FActive) ∧
        (v = lit "completed" → filter_ (snd r) = FCompleted)) ∧
  ((∀ v, getItem STORAGE_KEYS.sort = Normal (Some v) → ¬ validSortLiteral v) →
   sort_ (snd r) = Manual) ∧
  (∀ v, getItem STORAGE_KEYS.sort = Normal (Some v) →
        (v = lit "manual" → sort_ (snd r) = Manual) ∧
        (v = lit "due" → sort_ (snd r) = Due) ∧
        (v = lit "status" → sort_ (snd r) = Status)).
Proof.
  intros r. subst r. split; [apply loadEffect_normal|].
  rewrite loadEffect_todos, loadEffect_filter, loadEffect_sort.
  unfold loadTodos, loadFilter, loadSort, mbind, Stmt_bind, bind, eval.
  split; [|split; [|split; [|split; [|split]]]].
  - intros [Hg|[Hg|[Hg|(str & Hg & Hp)]]]; rewrite Hg; simpl; try done.
    destruct str as [|c str]; simpl; [done|].
    destruct Hp as [Hp|(v & Hp & Harr)]; rewrite Hp; simpl; [done|].
    by rewrite Harr.
  - intros str elems Hg Hne Hp. rewrite Hg.
    destruct str as [|c str]; [done|]. simpl. by rewrite Hp.
  - intros Hbad. destruct (getItem STORAGE_KEYS.filter) as [[v|]|]; simpl; try done.
    by rewrite (filterOfString_None v (Hbad v eq_refl)).
  - intros v Hg. rewrite Hg. repeat split; by intros ->.
  - intros Hbad. destruct (getItem STORAGE_KEYS.sort) as [[v|]|]; simpl; try done.
    by rewrite (sortOfString_None v (Hbad v eq_refl)).
  - intros v Hg. rewrite Hg. repeat split; by intros ->.
Qed.

Lemma filterOfString_literals :
  filterOfString (lit "all") = Some FAll ∧
  filterOfString (lit "active") = Some FActive ∧
  filterOfString (lit "completed") = Some FCompleted ∧
  filterOfString (lit "Active") = None.
Proof. repeat split. Qed.

Lemma sortOfString_literals :
  sortOfString (lit "manual") = Some Manual ∧
  sortOfString (lit "due") = Some Due ∧
  sortOfString (lit "status") = Some Status ∧
  sortOfString (lit "due ") = None.
Proof. repeat split. Qed.

(** ** Uniqueness of ids *)

Lemma uniqueIds_filter (P : Todo → Prop) `{!∀ t, Decision (P t)} l :
  uniqueIds l → uniqueIds (filter P l).
Proof.
  unfold uniqueIds. intros Hnd.
  apply (sublist_NoDup _ _ Hnd), fmap_sublist, sublist_filter.
Qed.

Lemma ids_fmap_same (f : Todo → Todo) (l : list Todo) :
  (∀ t, id (f t) = id t) → id <$> (f <$> l) = id <$> l.
Proof.
  intros Hf. rewrite <- list_fmap_compose. apply list_fmap_ext.
  intros _ t _. apply Hf.
Qed.

Lemma uniqueIds_singleton t : uniqueIds [t].
Proof. apply NoDup_singleton. Qed.

(** What [undo] appends: buffered tasks whose id is not in the collection. *)
Lemma undo_appends (s : AppState) :
  ∃ restored,
    todos (undo s) = todos s ++ restored ∧
    sublist restored (buffered s) ∧
    ∀ t, t ∈ restored → id t ∉ id <$> todos s.
Proof.
  unfold undo, buffered. destruct (undoStack s) as [stack|]; simpl.
  - destruct (length stack =? 0)%nat.
    + exists []. rewrite app_nil_r. repeat split; [apply sublist_nil_l|].
      intros t Ht. by apply elem_of_nil in Ht.
    + eexists. split; [reflexivity|]. split; [apply sublist_filter|].
      intros t Ht. apply list_elem_of_filter in Ht as [Hid _].
      by rewrite elem_of_list_to_set in Hid.
  - exists []. rewrite app_nil_r. repeat split; [done|].
    intros t Ht. by apply elem_of_nil in Ht.
Qed.

Lemma undo_unique (s : AppState) :
  uniqueIds (todos s) → uniqueIds (buffered s) → uniqueIds (todos (undo s)).
Proof.
  intros Ht Hb. destruct (undo_appends s) as (restored & -> & Hsub & Hfresh).
  unfold uniqueIds in *. rewrite fmap_app. apply NoDup_app. split; [done|]. split.
  - intros i Hi Hr. apply list_elem_of_fmap in Hr as (t & -> & Hr).
    by apply (Hfresh t Hr).
  - apply (sublist_NoDup _ _ Hb). by apply fmap_sublist.
Qed.

Lemma undo_buffer_empty (s : AppState) :
  buffered (undo s) = [] ∨ undo s = s.
Proof.
  unfold undo, buffered. destruct (undoStack s) as [stack|]; [|by right].
  destruct (length stack =? 0)%nat; [by right|by left].
Qed.

Lemma deleteTodo_inv i s : storeInv s → storeInv (deleteTodo i s).
Proof.
  intros [Ht Hb]. unfold deleteTodo.
  destruct (List.find (hasId i) (todos s)) as [removed|]; [|done].
  split; simpl; [by apply uniqueIds_filter|apply uniqueIds_singleton].
Qed.

Lemma saveEditing_inv s : storeInv s → storeInv (saveEditing s).
Proof.
  intros [Ht Hb]. unfold saveEditing.
  destruct (editingId s) as [eid|]; [|done].
  destruct (length (trim (editingText s)) =? 0)%nat.
  - destruct (List.find (hasId eid) (todos s)) as [removed|]; split; simpl;
      try by apply uniqueIds_filter.
    + apply uniqueIds_singleton.
    + exact Hb.
  - split; simpl; [|exact Hb]. unfold uniqueIds.
    rewrite ids_fmap_same; [done|]. intros t. by destruct (hasId eid t).
Qed.

Lemma applyOp_inv op s : storeInv s → freshIn op s → storeInv (applyOp op s).
Proof.
  intros Hinv Hfresh. destruct op as [x due e|i|i|i x| | |]; simpl in *.
  - destruct Hinv as [Ht Hb].
    pose proof (add_unfold x due e s) as (Hst & _ & Hadd).
    split.
    + rewrite Hadd. destruct (trim x) as [|c r]; [done|].
      unfold uniqueIds in *.
      rewrite fmap_app. apply NoDup_app. split; [done|]. split.
      * intros j Hj Hnew. simpl in Hnew. apply list_elem_of_singleton in Hnew.
        subst j. done.
      * apply NoDup_singleton.
    + unfold buffered. by rewrite Hst.
  - destruct Hinv as [Ht Hb]. split; simpl; [|exact Hb]. unfold uniqueIds.
    rewrite ids_fmap_same; [done|]. intros t. by destruct (hasId i t).
  - by apply deleteTodo_inv.
  - unfold editCommit. apply saveEditing_inv. exact Hinv.
  - destruct Hinv as [Ht Hb]. unfold clearCompleted.
    destruct (0 <? _)%nat; split; simpl; try by apply uniqueIds_filter.
    exact Hb.
  - destruct Hinv as [Ht Hb]. split; [by apply undo_unique|].
    destruct (undo_buffer_empty s) as [-> | ->]; [apply NoDup_nil_2|done].
  - destruct Hinv as [Ht Hb]. split; [exact Ht|apply NoDup_nil_2].
Qed.

Lemma run_inv ops s : storeInv s → freshAlong ops s → storeInv (run ops s).
Proof.
  revert s. induction ops as [|op ops IH]; intros s Hinv Hfresh; [done|].
  destruct Hfresh as [Hop Hrest]. apply IH; [by apply applyOp_inv|done].
Qed.

(** A collection with unique ids and an undo buffer with unique ids (an
    empty buffer, as at startup, is one) keep unique ids under every run of
    operations whose [add]s receive fresh ids. *)
Lemma run_keeps_invariant (ops : list Op) (s : AppState) :
  uniqueIds (todos s) → undoStack s = None → freshAlong ops s →
  uniqueIds (todos (run ops s)).
Proof.
  intros Ht Hnone Hfresh. apply run_inv; [|done].
  split; [done|]. unfold buffered. rewrite Hnone. apply NoDup_nil_2.
Qed.

(** Every operation but [undo] keeps the ids of the collection unique
    whatever the undo buffer holds. *)
Lemma applyOp_unique_todos (op : Op) (s : AppState) :
  uniqueIds (todos s) → op ≠ OpUndo → freshIn op s →
  uniqueIds (todos (applyOp op s)).
Proof.
  intros Ht Hop Hfresh.
  set (s0 := setUndoStack None s).
  assert (Hinv : storeInv s0) by (split; [exact Ht|apply NoDup_nil_2]).
  assert (Hsame : todos (applyOp op s) = todos (applyOp op s0)).
  { destruct op as [x due e|i|i|i x| | |]; try done; simpl.
    - unfold add, addTodo. simpl. by destruct (negb _).
    - unfold deleteTodo. simpl. by destruct (List.find _ _).
    - unfold editCommit, saveEditing. simpl.
      destruct (length _ =? 0)%nat; [|done]. by destruct (List.find _ _).
    - unfold clearCompleted. simpl. by destruct (0 <? _)%nat. }
  rewrite Hsame. by apply applyOp_inv.
Qed.

Lemma sampleRun_unique :
  id <$> todos (run sampleRun (stateOf [milk; bob; rent])) =
    [lit "id-4"; lit "id-2"; lit "id-1"] ∧
  uniqueIds (todos (run sampleRun (stateOf [milk; bob; rent]))).
Proof.
  split; [vm_compute; reflexivity|].
  apply run_keeps_invariant.
  - apply (bool_decide_unpack _). vm_compute. reflexivity.
  - reflexivity.
  - simpl. repeat split; apply (bool_decide_unpack _); vm_compute; reflexivity.
Qed.

(** [undo] compares the buffered ids with the collection's, not with each
    other: on the state that [clearCompleted] leaves when two done tasks
    carried the same id, the collection is empty, so its ids are unique, and
    [undo] puts both tasks back. *)
Lemma undo_duplicates_buffered_ids :
  twiceBuffered = clearCompleted (stateOf [milk; milk]) ∧
  uniqueIds (todos twiceBuffered) ∧
  freshIn OpUndo twiceBuffered ∧
  todos (applyOp OpUndo twiceBuffered) = [milk; milk] ∧
  ¬ uniqueIds (todos (applyOp OpUndo twiceBuffered)).
Proof.
  split; [reflexivity|]. split; [apply NoDup_nil_2|]. split; [exact I|].
  split; [reflexivity|].
  change (todos (applyOp OpUndo twiceBuffered)) with [milk; milk].
  unfold uniqueIds. rewrite fmap_cons, NoDup_cons. intros [Hnot _].
  apply Hnot. simpl. apply list_elem_of_here.
Qed.

(** C9 (amended). When no two tasks of the collection share an id, no two
    tasks of the undo buffer share an id and the generator returns an id
    that is not in the collection, every operation of the task store leaves
    a collection and an undo buffer without shared ids, and so does every
    run of operations after it. [undo] appends only buffered tasks whose id
    is not in the collection. *)
Theorem store_keeps_ids_unique (op : Op) (s : AppState) :
  uniqueIds (todos s) → uniqueIds (buffered s) → freshIn op s →
  uniqueIds (todos (applyOp op s)) ∧
  uniqueIds (buffered (applyOp op s)) ∧
  (∀ ops, freshAlong ops (applyOp op s) →
          uniqueIds (todos (run ops (applyOp op s)))) ∧
  ∃ restored,
    todos (undo s) = todos s ++ restored ∧
    restored `sublist_of` buffered s ∧
    ∀ t, t ∈ restored → id t ∉ id <$> todos s.
Proof.
  intros Ht Hb Hfresh.
  pose proof (applyOp_inv op s (conj Ht Hb) Hfresh) as Hinv.
  split; [apply Hinv|]. split; [apply Hinv|]. split.
  - intros ops Hops. by apply (run_inv ops (applyOp op s)).
  - apply undo_appends.
Qed.

Lemma store_keeps_ids_unique_witness :
  todos (applyOp OpUndo (clearCompleted (stateOf [milk; bob; rent])))
    = [bob; milk; rent] ∧
  uniqueIds (todos (applyOp OpUndo (clearCompleted (stateOf [milk; bob; rent])))).
Proof.
  split; [vm_compute; reflexivity|].
  refine (proj1 (store_keeps_ids_unique OpUndo
                   (clearCompleted (stateOf [milk; bob; rent])) _ _ _)).
  - apply (bool_decide_unpack _). vm_compute. reflexivity.
  - apply (bool_decide_unpack _). vm_compute. reflexivity.
  - exact I.
Defined.

(** ** The stable sort *)

Section SortPermutation.
Context {A : Type} (cmp : A → A → Z).

Lemma insertBy_Permutation (x : A) (l : list A) : insertBy cmp x l ≡ₚ x :: l.
Proof.
  induction l as [|y l IH]; simpl; [done|].
  destruct (cmp x y <=? 0); [done|].
  rewrite IH. apply Permutation_swap.
Qed.

Lemma sortBy_Permutation (l : list A) : sortBy cmp l ≡ₚ l.
Proof.
  induction l as [|x l IH]; simpl; [done|].
  rewrite insertBy_Permutation. by rewrite IH.
Qed.

Lemma sortBy_elem_of (l : list A) (x : A) : x ∈ sortBy cmp l ↔ x ∈ l.
Proof. by rewrite sortBy_Permutation. Qed.

Lemma sortBy_Forall (P : A → Prop) (l : list A) :
  Forall P l → Forall P (sortBy cmp l).
Proof. intros Hl. by rewrite sortBy_Permutation. Qed.
End SortPermutation.

Section SortSorted.
Context {A : Type} (cmp : A → A → Z) (ok : A → Prop).

(** The comparator is consistent on the elements that satisfy [ok]. *)
Hypothesis cmp_total : ∀ x y, ok x → ok y → cmp x y ≤ 0 ∨ cmp y x ≤ 0.
Hypothesis cmp_trans :
  ∀ x y z, ok x → ok y → ok z → cmp x y ≤ 0 → cmp y z ≤ 0 → cmp x z ≤ 0.

Lemma insertBy_sorted (x : A) (l : list A) :
  ok x → Forall ok l →
  StronglySorted (notAfter cmp) l →
  StronglySorted (notAfter cmp) (insertBy cmp x l).
Proof.
  intros Hx. induction l as [|y l IH]; intros Hok Hs; simpl.
  - by repeat constructor.
  - apply Forall_cons in Hok as [Hy Hok].
    apply StronglySorted_inv in Hs as [Hs Hall].
    destruct (Z.leb_spec (cmp x y) 0) as [Hle|Hgt].
    + constructor; [by constructor|].
      constructor; [done|].
      rewrite Forall_forall in Hall, Hok. apply Forall_forall.
      intros z Hz. apply (cmp_trans x y z); auto. by apply Hall.
    + constructor; [by apply IH|].
      rewrite insertBy_Permutation. constructor; [|done].
      destruct (cmp_total x y Hx Hy) as [Hle|Hle]; [lia|done].
Qed.

Lemma sortBy_sorted (l : list A) :
  Forall ok l → StronglySorted (notAfter cmp) (sortBy cmp l).
Proof.
  induction l as [|x l IH]; intros Hok; simpl; [constructor|].
  apply Forall_cons in Hok as [Hx Hok].
  apply insertBy_sorted; [done|by apply sortBy_Forall|by apply IH].
Qed.
End SortSorted.

Section SortPartition.
Context {A : Type} (cmp : A → A → Z) (first : A → bool).

(** The comparator always puts the elements of the class [first] before
    the others. *)
Hypothesis cmp_first_l : ∀ x y, cmp x y ≤ 0 → first y = true → first x = true.
Hypothesis cmp_first_r : ∀ x y, ¬ cmp x y ≤ 0 → first x = true → first y = true.

Lemma insertBy_classOrder (x : A) (l : list A) :
  StronglySorted (classOrder first) l →
  StronglySorted (classOrder first) (insertBy cmp x l).
Proof.
  induction l as [|y l IH]; intros Hs; simpl.
  - by repeat constructor.
  - apply StronglySorted_inv in Hs as [Hs Hall].
    destruct (Z.leb_spec (cmp x y) 0) as [Hle|Hgt].
    + constructor; [by constructor|].
      constructor; [exact (cmp_first_l x y Hle)|].
      rewrite Forall_forall in Hall. apply Forall_forall.
      intros z Hz Hfz. apply (cmp_first_l x y Hle). by apply (Hall z).
    + constructor; [by apply IH|].
      rewrite insertBy_Permutation. constructor; [|done].
      unfold classOrder. apply (cmp_first_r x y). lia.
Qed.

Lemma sortBy_classOrder (l : list A) :
  StronglySorted (classOrder first) (sortBy cmp l).
Proof.
  induction l as [|x l IH]; simpl; [constructor|]. by apply insertBy_classOrder.
Qed.
End SortPartition.

(** In a strongly sorted list, related positions hold related elements. *)
Lemma StronglySorted_lookup {A} (R : relation A) (l : list A) (i j : nat) (a b : A) :
  StronglySorted R l → l !! i = Some a → l !! j = Some b → (i < j)%nat → R a b.
Proof.
  intros Hs. revert i j. induction Hs as [|x l Hs IH Hall]; intros i j Hi Hj Hlt.
  - by rewrite lookup_nil in Hi.
  - destruct j as [|j]; [lia|]. simpl in Hj. destruct i as [|i]; simpl in Hi.
    + injection Hi as <-. rewrite Forall_forall in Hall. apply Hall.
      by eapply list_elem_of_lookup_2.
    + apply (IH i j); [done|done|lia].
Qed.

Lemma StronglySorted_three {A} (R : relation A) (x y z : A) :
  StronglySorted R [x; y; z] → R x y ∧ R x z ∧ R y z.
Proof.
  intros Hs. apply StronglySorted_inv in Hs as [Hs Hx].
  apply StronglySorted_inv in Hs as [_ Hy].
  apply Forall_cons in Hx as [Hxy Hx]. apply Forall_cons in Hx as [Hxz _].
  apply Forall_cons in Hy as [Hyz _]. done.
Qed.

Lemma StronglySorted_impl {A} (R R' : relation A) (ok : A → Prop) (l : list A) :
  (∀ a b, ok a → ok b → R a b → R' a b) →
  Forall ok l → StronglySorted R l → StronglySorted R' l.
Proof.
  intros Himpl Hok Hs. induction Hs as [|x l Hs IH Hall]; [constructor|].
  apply Forall_cons in Hok as [Hx Hok]. constructor; [by apply IH|].
  rewrite Forall_forall in Hall, Hok. apply Forall_forall.
  intros y Hy. apply Himpl; auto.
Qed.

(** ** The order of code units *)

Lemma lexLt_irrefl (a : jsstring) : ¬ lexLt a a.
Proof. induction a as [|x a IH]; inversion 1; subst; [lia|done]. Qed.

Lemma lexLt_trans (a b c : jsstring) : lexLt a b → lexLt b c → lexLt a c.
Proof.
  intros Hab. revert c. induction Hab as [y b|x y a b Hxy|x a b Hab IH];
    intros c Hbc; inversion Hbc; subst.
  - constructor.
  - constructor.
  - apply lexLt_head. lia.
  - by apply lexLt_head.
  - by apply lexLt_head.
  - apply lexLt_tail. by apply IH.
Qed.

Lemma lexLt_trichotomy (a b : jsstring) : lexLt a b ∨ a = b ∨ lexLt b a.
Proof.
  revert b. induction a as [|x a IH]; intros [|y b].
  - by right; left.
  - left. constructor.
  - right; right. constructor.
  - destruct (N.lt_trichotomy x y) as [Hlt|[->|Hgt]].
    + left. by constructor.
    + destruct (IH b) as [Hlt|[->|Hgt]].
      * left. by constructor.
      * by right; left.
      * right; right. by constructor.
    + right; right. by constructor.
Qed.

Lemma strLt_false (a b : jsstring) : strLt a b = false ↔ a = b ∨ lexLt b a.
Proof.
  rewrite <- not_true_iff_false, strLt_lexLt. split.
  - intros Hn. destruct (lexLt_trichotomy a b) as [?|[?|?]]; tauto.
  - intros [->|Hba] Hab; [by apply (lexLt_irrefl b)|].
    apply (lexLt_irrefl a). by apply (lexLt_trans a b a).
Qed.

Lemma codeUnitCompare_Gt (a b : jsstring) : codeUnitCompare a b = Gt ↔ lexLt b a.
Proof.
  revert b. induction a as [|x a IH]; intros [|y b]; simpl.
  - split; [done|inversion 1].
  - split; [done|inversion 1].
  - split; [constructor|done].
  - destruct (N.compare_spec x y) as [->|Hlt|Hgt].
    + rewrite IH. split; [by constructor|]. inversion 1; subst; [lia|done].
    + split; [done|]. inversion 1; subst; lia.
    + split; [by constructor|done].
Qed.

Lemma codeUnitOrder_le (a b : jsstring) : codeUnitOrder a b ≤ 0 ↔ strLt b a = false.
Proof.
  rewrite <- not_true_iff_false, strLt_lexLt, <- codeUnitCompare_Gt.
  unfold codeUnitOrder. destruct (codeUnitCompare a b); split; (done || lia).
Qed.

Lemma codeUnitOrder_total (a b : jsstring) :
  codeUnitOrder a b ≤ 0 ∨ codeUnitOrder b a ≤ 0.
Proof.
  rewrite !codeUnitOrder_le, !strLt_false.
  destruct (lexLt_trichotomy a b) as [?|[?|?]]; auto.
Qed.

Lemma codeUnitOrder_trans (a b c : jsstring) :
  codeUnitOrder a b ≤ 0 → codeUnitOrder b c ≤ 0 → codeUnitOrder a c ≤ 0.
Proof.
  rewrite !codeUnitOrder_le, !strLt_false.
  intros [->|Hab] [->|Hbc]; auto. right. by apply (lexLt_trans a b c).
Qed.

(** ** The projection *)

Lemma truthyDue_true (t : Todo) : truthyDue t = true ↔ dueKey t ≠ [].
Proof. unfold truthyDue. by destruct (dueKey t). Qed.

Lemma truthyDue_false (t : Todo) : truthyDue t = false ↔ dueKey t = [].
Proof. unfold truthyDue. by destruct (dueKey t). Qed.

Lemma okDue_truthy (t : Todo) :
  okDue t → truthyDue t = true → isIsoDate (dueKey t) = true.
Proof. intros [Hnil|Hiso] Ht; [|done]. by apply truthyDue_true in Ht. Qed.

Lemma filter_keep_all (l : list Todo) : filter (keep FAll) l = l.
Proof.
  induction l as [|t l IH]; [done|]. rewrite filter_cons_True by done. by rewrite IH.
Qed.

Lemma deref_alloc (h : Heap) (v : list Todo) : deref (h ++ [v]) (length h) = v.
Proof. unfold deref. by rewrite list_lookup_middle. Qed.

Lemma deref_snoc (h : Heap) (v : list Todo) (r : Ref) :
  (r < length h)%nat → deref (h ++ [v]) r = deref h r.
Proof. intros Hr. unfold deref. by rewrite lookup_app_l. Qed.

(** The memo on the store: it returns a reference to the projection of the
    array it was given and leaves every array that existed as it was. *)
Lemma filteredTodosOn_spec lc (r : Ref) (f : Filter) (m : SortMode) (h : Heap)
    (l : list Todo) :
  h !! r = Some l →
  deref (snd (filteredTodosOn lc r f m h)) (fst (filteredTodosOn lc r f m h))
    = project lc f m l ∧
  ∀ k, (k < length h)%nat → snd (filteredTodosOn lc r f m h) !! k = h !! k.
Proof.
  intros Hr.
  assert (Hlt : (r < length h)%nat) by (by eapply lookup_lt_Some).
  assert (Hd : deref h r = l) by (unfold deref; by rewrite Hr).
  assert (Hfilter : ∃ r1 h1,
    (match f with
     | FActive => arrFilter (fun t => done t = false) r h
     | FCompleted => arrFilter (fun t => done t = true) r h
     | FAll => (r, h)
     end) = (r1, h1) ∧
    deref h1 r1 = filter (keep f) l ∧ (r1 < length h1)%nat ∧
    (length h ≤ length h1)%nat ∧
    ∀ k, (k < length h)%nat → h1 !! k = h !! k).
  { destruct f; unfold arrFilter, alloc; rewrite ?Hd.
    - exists r, h. rewrite filter_keep_all. by repeat split.
    - eexists _, _. split; [reflexivity|]. rewrite deref_alloc, length_app. simpl.
      repeat split; [lia|lia|]. intros k Hk. by rewrite lookup_app_l.
    - eexists _, _. split; [reflexivity|]. rewrite deref_alloc, length_app. simpl.
      repeat split; [lia|lia|]. intros k Hk. by rewrite lookup_app_l. }
  destruct Hfilter as (r1 & h1 & Hf & Hd1 & Hr1 & Hlen & Hsame).
  unfold filteredTodosOn. rewrite Hf.
  destruct m; unfold project, arrSpread, arrSort, alloc; simpl; rewrite ?Hd1.
  - by split.
  - split.
    + unfold deref at 1. rewrite list_lookup_insert_eq by (rewrite length_app; simpl; lia).
      simpl. by rewrite deref_alloc.
    + intros k Hk. rewrite list_lookup_insert_ne by lia.
      rewrite lookup_app_l by lia. by apply Hsame.
  - split.
    + unfold deref at 1. rewrite list_lookup_insert_eq by (rewrite length_app; simpl; lia).
      simpl. by rewrite deref_alloc.
    + intros k Hk. rewrite list_lookup_insert_ne by lia.
      rewrite lookup_app_l by lia. by apply Hsame.
Qed.

Lemma filteredTodos_project lc (s : AppState) :
  filteredTodos lc s = project lc (filter_ s) (sort_ s) (todos s).
Proof.
  unfold filteredTodos.
  destruct (filteredTodosOn_spec lc 0%nat (filter_ s) (sort_ s) [todos s] (todos s))
    as [Hd _]; [done|].
  destruct (filteredTodosOn lc 0%nat (filter_ s) (sort_ s) [todos s]) as [r h].
  exact Hd.
Qed.

Section DueClasses.
Variable lc : jsstring → jsstring → Z.

(** Whatever the collation, the comparator of the [due] mode puts a task
    with a non-empty due date before a task without one. *)
Lemma compareDue_dated_l (x y : Todo) :
  compareDue lc x y ≤ 0 → truthyDue y = true → truthyDue x = true.
Proof.
  unfold compareDue, truthyDue. case_bool_decide as Heq.
  - by rewrite Heq.
  - destruct (truthyStr (dueKey x)); simpl; [done|lia].
Qed.

Lemma compareDue_dated_r (x y : Todo) :
  ¬ compareDue lc x y ≤ 0 → truthyDue x = true → truthyDue y = true.
Proof.
  unfold compareDue, truthyDue. case_bool_decide as Heq.
  - by rewrite Heq.
  - intros Hgt Hx. rewrite Hx in Hgt. simpl in Hgt.
    destruct (truthyStr (dueKey y)); simpl in *; [done|lia].
Qed.

Lemma project_due_dated_first (f : Filter) (l : list Todo) (i j : nat) (a b : Todo) :
  project lc f Due l !! i = Some a → project lc f Due l !! j = Some b →
  truthyDue a = true → truthyDue b = false → (i < j)%nat.
Proof.
  intros Hi Hj Ha Hb.
  pose proof (sortBy_classOrder (compareDue lc) truthyDue
                compareDue_dated_l compareDue_dated_r (filter (keep f) l)) as Hs.
  destruct (Nat.lt_trichotomy i j) as [Hlt|[->|Hgt]]; [done| |].
  - rewrite Hi in Hj. injection Hj as ->. congruence.
  - pose proof (StronglySorted_lookup _ _ j i b a Hs Hj Hi Hgt) as Hcl.
    unfold classOrder in Hcl. rewrite (Hcl Ha) in Hb. discriminate.
Qed.

End DueClasses.

Section DueOrder.
Variable lc : jsstring → jsstring → Z.

(** The collation is a total preorder, and on dates of the form
    [YYYY-MM-DD] it is the order of code units. *)
Hypothesis lc_total : ∀ x y, lc x y ≤ 0 ∨ lc y x ≤ 0.
Hypothesis lc_trans : ∀ x y z, lc x y ≤ 0 → lc y z ≤ 0 → lc x z ≤ 0.
Hypothesis lc_iso :
  ∀ x y, isIsoDate x = true → isIsoDate y = true →
         (lc x y ≤ 0 ↔ strLt y x = false).

Lemma compareDue_dueOrder (a b : Todo) :
  okDue a → okDue b → (compareDue lc a b ≤ 0 ↔ dueOrder lc a b).
Proof.
  intros Ha Hb. unfold compareDue, dueOrder.
  destruct (truthyDue a) eqn:Hta, (truthyDue b) eqn:Htb;
    unfold truthyDue in Hta, Htb; rewrite ?Hta, ?Htb; simpl.
  - pose proof (okDue_truthy a Ha Hta) as Hia.
    pose proof (okDue_truthy b Hb Htb) as Hib.
    case_bool_decide as Heq.
    + split; [by right|]. intros [Hlt|[_ Hle]]; [|done].
      rewrite Heq in Hlt. by apply lexLt_irrefl in Hlt.
    + rewrite (lc_iso _ _ Hia Hib), strLt_false. split.
      * intros [Hba|Hlt]; [congruence|by left].
      * intros [Hlt|[Heq' _]]; [by right|done].
  - apply truthyStr_false in Htb. case_bool_decide as Heq; [|done].
    rewrite Htb in Heq. rewrite Heq in Hta. done.
  - apply truthyStr_false in Hta. case_bool_decide as Heq; [|split; [lia|done]].
    rewrite Hta in Heq. rewrite <- Heq in Htb. done.
  - apply truthyStr_false in Hta, Htb. rewrite Hta, Htb.
    by rewrite bool_decide_eq_true_2.
Qed.

Lemma dueOrder_total (a b : Todo) : dueOrder lc a b ∨ dueOrder lc b a.
Proof.
  unfold dueOrder. destruct (truthyDue a), (truthyDue b); auto.
  destruct (lexLt_trichotomy (dueKey a) (dueKey b)) as [Hlt|[Heq|Hgt]]; auto.
  destruct (lc_total (text a) (text b)); auto.
Qed.

Lemma dueOrder_trans (a b c : Todo) :
  dueOrder lc a b → dueOrder lc b c → dueOrder lc a c.
Proof.
  unfold dueOrder.
  destruct (truthyDue a), (truthyDue b), (truthyDue c); try done.
  - intros [Hab|[Hab Htab]] [Hbc|[Hbc Htbc]].
    + left. by apply (lexLt_trans _ (dueKey b)).
    + left. by rewrite <- Hbc.
    + left. by rewrite Hab.
    + right. split; [congruence|]. by apply (lc_trans _ (text b)).
  - apply lc_trans.
Qed.

Lemma compareDue_total (x y : Todo) :
  okDue x → okDue y → compareDue lc x y ≤ 0 ∨ compareDue lc y x ≤ 0.
Proof.
  intros Hx Hy. rewrite !compareDue_dueOrder by done. apply dueOrder_total.
Qed.

Lemma compareDue_trans (x y z : Todo) :
  okDue x → okDue y → okDue z →
  compareDue lc x y ≤ 0 → compareDue lc y z ≤ 0 → compareDue lc x z ≤ 0.
Proof.
  intros Hx Hy Hz. rewrite !compareDue_dueOrder by done. apply dueOrder_trans.
Qed.

Lemma project_due_sorted (f : Filter) (l : list Todo) :
  Forall okDue l → StronglySorted (dueOrder lc) (project lc f Due l).
Proof.
  intros Hok. unfold project.
  assert (Hokf : Forall okDue (filter (keep f) l)).
  { apply Forall_forall. intros t Ht. apply list_elem_of_filter in Ht as [_ Ht].
    rewrite Forall_forall in Hok. by apply Hok. }
  apply (StronglySorted_impl (notAfter (compareDue lc)) _ okDue).
  - intros a b Ha Hb. by apply compareDue_dueOrder.
  - by apply sortBy_Forall.
  - apply (sortBy_sorted _ okDue); [apply compareDue_total|apply compareDue_trans|done].
Qed.
End DueOrder.

Section DueExample.
Variable lc : jsstring → jsstring → Z.
Hypothesis lc_total : ∀ x y, lc x y ≤ 0 ∨ lc y x ≤ 0.
Hypothesis lc_trans : ∀ x y z, lc x y ≤ 0 → lc y z ≤ 0 → lc x z ≤ 0.
Hypothesis lc_iso :
  ∀ x y, isIsoDate x = true → isIsoDate y = true →
         (lc x y ≤ 0 ↔ strLt y x = false).

Variables (i5 x5 i1 x1 iu xu : jsstring) (d5 d1 du : bool).

Lemma lexLt_decide (a b : jsstring) : strLt a b = false → ¬ lexLt a b.
Proof. intros Hf Hlt. apply strLt_lexLt in Hlt. congruence. Qed.

Lemma due_example_misordered :
  ¬ dueOrder lc (dueJan5 i5 x5 d5) (dueJan1 i1 x1 d1) ∧
  ¬ dueOrder lc (noDue iu xu du) (dueJan5 i5 x5 d5) ∧
  ¬ dueOrder lc (noDue iu xu du) (dueJan1 i1 x1 d1).
Proof.
  unfold dueOrder, dueJan5, dueJan1, noDue. cbn. repeat split; try tauto.
  intros [Hlt|[Heq _]]; [|discriminate Heq].
  revert Hlt. by apply lexLt_decide.
Qed.

Lemma due_example_sorted (l : list Todo) :
  l ≡ₚ [dueJan5 i5 x5 d5; dueJan1 i1 x1 d1; noDue iu xu du] →
  project lc FAll Due l = [dueJan1 i1 x1 d1; dueJan5 i5 x5 d5; noDue iu xu du].
Proof.
  intros Hperm.
  assert (Hok : Forall okDue l).
  { rewrite Hperm. repeat constructor; apply (bool_decide_unpack _); reflexivity. }
  pose proof (project_due_sorted lc lc_total lc_trans lc_iso FAll l Hok) as Hs.
  assert (Hp : [dueJan5 i5 x5 d5; dueJan1 i1 x1 d1; noDue iu xu du]
               ≡ₚ project lc FAll Due l).
  { unfold project. by rewrite sortBy_Permutation, filter_keep_all. }
  destruct due_example_misordered as (N51 & Nu5 & Nu1).
  apply permutations_Permutation in Hp. fold (project lc FAll Due l) in Hp.
  revert Hs Hp. generalize (project lc FAll Due l). intros out Hs Hp.
  cbn in Hp.
  repeat (apply elem_of_cons in Hp as [-> | Hp]);
    try (by apply elem_of_nil in Hp);
    try reflexivity;
    destruct (StronglySorted_three _ _ _ _ Hs) as (H1 & H2 & H3); tauto.
Qed.
End DueExample.

(** A task whose due date field holds the empty string is shown after a
    dated task, although the empty string is before every date. *)
Lemma due_projection_empty_date_not_as_stated :
  filteredTodos codeUnitOrder
    (mkState [waterPlants; milk] [] [] FAll Due None [] None None)
    = [milk; waterPlants] ∧
  lexLt (dueKey waterPlants) (dueKey milk) ∧
  ¬ StronglySorted (dueOrderAsStated codeUnitOrder)
      (filteredTodos codeUnitOrder
         (mkState [waterPlants; milk] [] [] FAll Due None [] None None)).
Proof.
  split; [vm_compute; reflexivity|]. split; [apply strLt_lexLt; reflexivity|].
  replace (filteredTodos codeUnitOrder _) with [milk; waterPlants]
    by (vm_compute; reflexivity).
  intros Hs. apply StronglySorted_inv in Hs as [_ Hall].
  apply Forall_cons in Hall as [[Hlt|[Heq _]] _].
  - inversion Hlt.
  - discriminate Heq.
Qed.

(** C5 (amended). Let the collation be a total preorder that orders dates of
    the form [YYYY-MM-DD] as their code units do, and let every due date of
    the collection be missing, empty or of that form. In the [due] mode the
    displayed sequence is a rearrangement of the filtered tasks in which the
    tasks with a non-empty due date come first, by ascending date in
    code-unit order, the tasks with a missing or empty due date come after
    them, and a tie is in ascending order of text under the collation. The
    array of the canonical collection is not written. Three tasks due
    2024-01-05, due 2024-01-01 and without a date are shown in the order
    2024-01-01, 2024-01-05, undated, whatever their order of insertion. *)
Theorem due_projection_sorted (lc : jsstring → jsstring → Z) :
  (∀ x y, lc x y ≤ 0 ∨ lc y x ≤ 0) →
  (∀ x y z, lc x y ≤ 0 → lc y z ≤ 0 → lc x z ≤ 0) →
  (∀ x y, isIsoDate x = true → isIsoDate y = true →
          (lc x y ≤ 0 ↔ strLt y x = false)) →
  ∀ s : AppState,
  Forall okDue (todos s) → sort_ s = Due →
  let out := filteredTodos lc s in
  out ≡ₚ filter (keep (filter_ s)) (todos s) ∧
  StronglySorted (dueOrder lc) out ∧
  (∀ i j a b, out !! i = Some a → out !! j = Some b →
              truthyDue a = true → truthyDue b = false → (i < j)%nat) ∧
  (∀ (h : Heap) (r : Ref),
      h !! r = Some (todos s) →
      snd (filteredTodosOn lc r (filter_ s) (sort_ s) h) !! r = Some (todos s)) ∧
  (∀ (i5 x5 i1 x1 iu xu : jsstring) (d5 d1 du : bool) (l : list Todo),
      l ≡ₚ [dueJan5 i5 x5 d5; dueJan1 i1 x1 d1; noDue iu xu du] →
      filteredTodos lc (mkState l [] [] FAll Due None [] None None)
      = [dueJan1 i1 x1 d1; dueJan5 i5 x5 d5; noDue iu xu du]).
Proof.
  intros Htotal Htrans Hiso s Hok Hsort out. subst out.
  rewrite filteredTodos_project, Hsort.
  split; [apply sortBy_Permutation|].
  split; [by apply project_due_sorted|].
  split; [apply project_due_dated_first|].
  split.
  - intros h r Hr.
    destruct (filteredTodosOn_spec lc r (filter_ s) Due h (todos s) Hr) as [_ Hsame].
    rewrite Hsame; [done|]. by eapply lookup_lt_Some.
  - intros i5 x5 i1 x1 iu xu d5 d1 du l Hperm.
    rewrite filteredTodos_project. simpl. by apply due_example_sorted.
Qed.

Lemma codeUnitOrder_iso (x y : jsstring) :
  isIsoDate x = true → isIsoDate y = true →
  (codeUnitOrder x y ≤ 0 ↔ strLt y x = false).
Proof. intros _ _. apply codeUnitOrder_le. Qed.

Lemma due_projection_sorted_witness :
  filteredTodos codeUnitOrder
    (mkState [rent; bob; milk] [] [] FAll Due None [] None None)
    = [milk; rent; bob] ∧
  StronglySorted (dueOrder codeUnitOrder)
    (filteredTodos codeUnitOrder
       (mkState [rent; bob; milk] [] [] FAll Due None [] None None)).
Proof.
  split; [vm_compute; reflexivity|].
  refine (proj1 (proj2 (due_projection_sorted codeUnitOrder
            codeUnitOrder_total codeUnitOrder_trans codeUnitOrder_iso
            (mkState [rent; bob; milk] [] [] FAll Due None [] None None) _ _))).
  - repeat constructor; apply (bool_decide_unpack _); vm_compute; reflexivity.
  - reflexivity.
Defined.

(** ** An empty due date *)

Lemma absentIfEmpty_dueKey (t : Todo) : dueKey (absentIfEmpty t) = dueKey t.
Proof.
  unfold absentIfEmpty. destruct (truthyDue t) eqn:Ht; [done|].
  apply truthyDue_false in Ht. by rewrite Ht.
Qed.

Lemma absentIfEmpty_text (t : Todo) : text (absentIfEmpty t) = text t.
Proof. unfold absentIfEmpty. by destruct (truthyDue t). Qed.

Lemma absentIfEmpty_done (t : Todo) : done (absentIfEmpty t) = done t.
Proof. unfold absentIfEmpty. by destruct (truthyDue t). Qed.

Lemma absentIfEmpty_empty (t : Todo) :
  dueDate t = Some [] → absentIfEmpty t = withDue None t.
Proof. intros Hd. unfold absentIfEmpty, truthyDue, dueKey. by rewrite Hd. Qed.

Lemma compareDue_absentIfEmpty lc (a b : Todo) :
  compareDue lc (absentIfEmpty a) (absentIfEmpty b) = compareDue lc a b.
Proof.
  unfold compareDue. by rewrite !absentIfEmpty_dueKey, !absentIfEmpty_text.
Qed.

Lemma isOverdue_absentIfEmpty (today : jsstring) (t : Todo) :
  isOverdue today (absentIfEmpty t) = isOverdue today t.
Proof.
  unfold isOverdue, truthyDue.
  by rewrite absentIfEmpty_dueKey, absentIfEmpty_done.
Qed.

Section SortFmap.
Context {A : Type} (cmp : A → A → Z) (g : A → A).
Hypothesis cmp_g : ∀ a b, cmp (g a) (g b) = cmp a b.

Lemma insertBy_fmap (x : A) (l : list A) :
  insertBy cmp (g x) (g <$> l) = g <$> insertBy cmp x l.
Proof.
  induction l as [|y l IH]; [done|].
  rewrite fmap_cons. cbn [insertBy]. rewrite cmp_g.
  destruct (cmp x y <=? 0); [done|]. by rewrite fmap_cons, IH.
Qed.

Lemma sortBy_fmap (l : list A) : sortBy cmp (g <$> l) = g <$> sortBy cmp l.
Proof.
  induction l as [|x l IH]; [done|].
  rewrite fmap_cons. cbn [sortBy]. rewrite IH. apply insertBy_fmap.
Qed.
End SortFmap.

Lemma filter_keep_absentIfEmpty (f : Filter) (l : list Todo) :
  filter (keep f) (absentIfEmpty <$> l) = absentIfEmpty <$> filter (keep f) l.
Proof.
  induction l as [|t l IH]; [done|]. rewrite fmap_cons.
  assert (Hk : keep f (absentIfEmpty t) ↔ keep f t).
  { destruct f; simpl; by rewrite ?absentIfEmpty_done. }
  destruct (decide (keep f t)) as [Hy|Hn].
  - rewrite !filter_cons_True by tauto. by rewrite fmap_cons, IH.
  - rewrite !filter_cons_False by tauto. exact IH.
Qed.

(** No operation of the store writes an empty due date: [add] turns an
    empty date input into a missing date and the other operations copy the
    dates they find. *)
Lemma dueOfInput_not_empty (due : option jsstring) : dueOfInput due ≠ Some [].
Proof. by destruct due as [[|c d]|]. Qed.

Lemma applyOp_dueNotEmpty (op : Op) (s : AppState) :
  Forall dueNotEmpty (todos s) → Forall dueNotEmpty (buffered s) →
  Forall dueNotEmpty (todos (applyOp op s)) ∧
  Forall dueNotEmpty (buffered (applyOp op s)).
Proof.
  intros Ht Hb.
  assert (Hfilter : ∀ (P : Todo → Prop) `{!∀ t, Decision (P t)} l,
             Forall dueNotEmpty l → Forall dueNotEmpty (filter P l)).
  { intros P ? l Hl. apply Forall_forall. intros t Hin.
    apply list_elem_of_filter in Hin as [_ Hin].
    rewrite Forall_forall in Hl. by apply Hl. }
  assert (Hfind : ∀ i t, List.find (hasId i) (todos s) = Some t → dueNotEmpty t).
  { intros i t Hf. apply find_hasId_Some in Hf as [Hin _].
    rewrite Forall_forall in Ht. by apply Ht. }
  destruct op as [x due e|i|i|i x| | |]; simpl.
  - destruct (add_unfold x due e s) as (Hst & _ & Htodos).
    unfold buffered. rewrite Hst, Htodos. split; [|exact Hb].
    destruct (trim x); [done|]. apply Forall_app. split; [done|].
    repeat constructor. apply dueOfInput_not_empty.
  - split; [|exact Hb]. apply Forall_fmap. eapply Forall_impl; [exact Ht|].
    intros t Hne. simpl. by destruct (hasId i t).
  - unfold deleteTodo. destruct (List.find (hasId i) (todos s)) as [t|] eqn:Hf;
      [|done]. split; simpl; [by apply Hfilter|].
    repeat constructor. by apply (Hfind i).
  - unfold editCommit, saveEditing. simpl.
    destruct (length (trim x) =? 0)%nat.
    + destruct (List.find (hasId i) (todos s)) as [t|] eqn:Hf; split; simpl;
        try by apply Hfilter.
      * repeat constructor. by apply (Hfind i).
      * exact Hb.
    + split; [|exact Hb]. simpl. apply Forall_fmap.
      eapply Forall_impl; [exact Ht|].
      intros t Hne. simpl. by destruct (hasId i t).
  - unfold clearCompleted. destruct (0 <? _)%nat; split; simpl;
      try by apply Hfilter.
    exact Hb.
  - destruct (undo_appends s) as (restored & Happ & Hsub & _).
    split.
    + rewrite Happ. apply Forall_app. split; [done|].
      apply Forall_forall. intros t Hin. rewrite Forall_forall in Hb.
      apply Hb. by eapply elem_of_sublist.
    + destruct (undo_buffer_empty s) as [-> | ->]; [constructor|done].
  - split; [exact Ht|constructor].
Qed.

Lemma run_dueNotEmpty (ops : list Op) (s : AppState) :
  Forall dueNotEmpty (todos s) → Forall dueNotEmpty (buffered s) →
  Forall dueNotEmpty (todos (run ops s)).
Proof.
  revert s. induction ops as [|op ops IH]; intros s Ht Hb; [done|].
  destruct (applyOp_dueNotEmpty op s Ht Hb) as [Ht' Hb']. by apply IH.
Qed.

(** C10. A task whose due date field holds the empty string is treated as
    the same task without a due date: it is never flagged overdue, the
    comparator of the [due] mode cannot tell the two apart, so the projection
    of a collection and that of the collection with the empty dates removed
    agree task by task, and in the [due] mode it is shown after every task
    with a non-empty due date. No run of store operations from the initial
    state puts such a task in the collection. *)
Theorem empty_due_date_as_absent (lc : jsstring → jsstring → Z) (t : Todo) :
  dueDate t = Some [] →
  (∀ today, isOverdue today t = false ∧
            isOverdue today (withDue None t) = false) ∧
  (∀ u, compareDue lc t u = compareDue lc (withDue None t) u ∧
        compareDue lc u t = compareDue lc u (withDue None t)) ∧
  (∀ s, sort_ s = Due →
        filteredTodos lc (setTodos (fmap absentIfEmpty) s)
        = absentIfEmpty <$> filteredTodos lc s) ∧
  (∀ s i j u, sort_ s = Due →
        filteredTodos lc s !! i = Some u → filteredTodos lc s !! j = Some t →
        truthyDue u = true → (i < j)%nat) ∧
  (∀ ops, t ∉ todos (run ops initialState)).
Proof.
  intros Hd.
  assert (Hkey : dueKey t = []) by (unfold dueKey; by rewrite Hd).
  split; [|split; [|split; [|split]]].
  - intros today. unfold isOverdue, truthyDue. rewrite Hkey. done.
  - intros u. unfold compareDue. rewrite Hkey. done.
  - intros s Hsort. rewrite !filteredTodos_project. simpl. rewrite Hsort.
    unfold project. rewrite filter_keep_absentIfEmpty.
    apply sortBy_fmap. apply compareDue_absentIfEmpty.
  - intros s i j u Hsort Hi Hj Hu.
    rewrite filteredTodos_project, Hsort in Hi, Hj.
    apply (project_due_dated_first lc (filter_ s) (todos s) i j u t); try done.
    by apply truthyDue_false.
  - intros ops Hin.
    pose proof (run_dueNotEmpty ops initialState (Forall_nil_2 _) (Forall_nil_2 _))
      as Hall.
    rewrite Forall_forall in Hall. by apply (Hall t Hin).
Qed.

Lemma empty_due_date_as_absent_witness :
  filteredTodos codeUnitOrder
    (mkState [waterPlants; rent; bob; milk] [] [] FAll Due None [] None None)
    = [milk; rent; bob; waterPlants] ∧
  isOverdue (lit "2024-06-01") waterPlants = false.
Proof.
  split; [vm_compute; reflexivity|].
  exact (proj1 (proj1 (empty_due_date_as_absent codeUnitOrder waterPlants eq_refl)
                  (lit "2024-06-01"))).
Defined.

(** * Further properties of the component *)

(** ** Trimming *)

Lemma trimStart_head (x : jsstring) :
  match trimStart x with
  | [] => True
  | c :: _ => isWhiteSpace c = false
  end.
Proof.
  induction x as [|c x IH]; simpl; [done|].
  destruct (isWhiteSpace c) eqn:Hc; [exact IH|done].
Qed.

Lemma trimStart_fixed (x : jsstring) :
  match x with [] => True | c :: _ => isWhiteSpace c = false end →
  trimStart x = x.
Proof. destruct x as [|c x]; simpl; [done|]. by intros ->. Qed.

Lemma trimStart_split (x : jsstring) :
  ∃ ws, x = ws ++ trimStart x ∧ Forall (fun c => isWhiteSpace c = true) ws.
Proof.
  induction x as [|c x IH]; simpl.
  - by exists [].
  - destruct (isWhiteSpace c) eqn:Hc.
    + destruct IH as (ws & Hx & Hws). exists (c :: ws). split.
      * simpl. by rewrite <- Hx.
      * by constructor.
    + by exists [].
Qed.

(** The trimmed string does not end with white space. *)
Lemma trim_rev_head (x : jsstring) : trimStart (rev (trim x)) = rev (trim x).
Proof.
  unfold trim, trimEnd. rewrite rev_involutive. apply trimStart_fixed.
  apply trimStart_head.
Qed.

(** The trimmed string does not start with white space. *)
Lemma trim_head (x : jsstring) : trimStart (trim x) = trim x.
Proof.
  apply trimStart_fixed. unfold trim, trimEnd.
  destruct (trimStart_split (rev (trimStart x))) as (ws & Hrev & _).
  pose proof (trimStart_head x) as Hhead.
  destruct (rev (trimStart (rev (trimStart x)))) as [|c r] eqn:Hz; [done|].
  assert (Hy : trimStart x = (c :: r) ++ rev ws).
  { rewrite <- Hz, <- rev_app_distr, <- Hrev. by rewrite rev_involutive. }
  rewrite Hy in Hhead. exact Hhead.
Qed.

Lemma trim_idempotent (x : jsstring) : trim (trim x) = trim x.
Proof.
  unfold trim at 1. rewrite trim_head. unfold trimEnd.
  by rewrite trim_rev_head, rev_involutive.
Qed.

(** What [trim] removes is white space, at the two ends. *)
Lemma trim_split (x : jsstring) :
  ∃ ws1 ws2,
    x = ws1 ++ trim x ++ ws2 ∧
    Forall (fun c => isWhiteSpace c = true) ws1 ∧
    Forall (fun c => isWhiteSpace c = true) ws2.
Proof.
  destruct (trimStart_split x) as (ws1 & Hx & Hws1).
  destruct (trimStart_split (rev (trimStart x))) as (ws & Hrev & Hws).
  exists ws1, (rev ws). split; [|split; [done|]].
  - rewrite Hx at 1. f_equal. unfold trim, trimEnd.
    rewrite <- rev_app_distr, <- Hrev. by rewrite rev_involutive.
  - apply Forall_forall. intros c Hc. rewrite Forall_forall in Hws.
    apply Hws. apply list_elem_of_In. apply in_rev. by apply list_elem_of_In.
Qed.

(** ** Toggling *)

Lemma withDone_negb_negb (t : Todo) : withDone (negb (negb (done t))) t = t.
Proof. destruct t as [i x d due]. unfold withDone. simpl. by rewrite negb_involutive. Qed.

Lemma toggle_todos_other (i : jsstring) (l : list Todo) :
  (∀ t, t ∈ l → id t ≠ i) →
  (fun t => if hasId i t then withDone (negb (done t)) t else t) <$> l = l.
Proof.
  intros Hl. induction l as [|t l IH]; [done|].
  rewrite fmap_cons. unfold hasId at 1.
  rewrite bool_decide_eq_false_2 by (apply Hl; apply list_elem_of_here).
  rewrite IH; [done|]. intros u Hu. apply Hl. by apply list_elem_of_further.
Qed.

(** X1. Toggling the same id twice gives back the state, whatever the
    collection holds. *)
Theorem toggleTodo_involutive (i : jsstring) (s : AppState) :
  toggleTodo i (toggleTodo i s) = s.
Proof.
  destruct s as [l nt nd f m ei et us um]. unfold toggleTodo, setTodos. simpl.
  f_equal. rewrite <- list_fmap_compose.
  induction l as [|t l IH]; [done|]. rewrite fmap_cons, IH. f_equal.
  destruct t as [j x d due]. unfold hasId, withDone. simpl.
  destruct (bool_decide (j = i)) eqn:Hi; simpl; rewrite Hi; [|done].
  by rewrite negb_involutive.
Qed.

(** X2. Toggling changes no id, text or due date, keeps the order and the
    length, leaves the undo buffer and its message alone, and changes
    nothing at all for an id that is not in the collection. *)
Theorem toggleTodo_frame (i : jsstring) (s : AppState) :
  id <$> todos (toggleTodo i s) = id <$> todos s ∧
  text <$> todos (toggleTodo i s) = text <$> todos s ∧
  dueDate <$> todos (toggleTodo i s) = dueDate <$> todos s ∧
  length (todos (toggleTodo i s)) = length (todos s) ∧
  undoStack (toggleTodo i s) = undoStack s ∧
  undoMessage (toggleTodo i s) = undoMessage s ∧
  (i ∉ id <$> todos s → toggleTodo i s = s).
Proof.
  unfold toggleTodo. simpl.
  assert (Hmap : ∀ {B} (g : Todo → B),
             (∀ t, g (withDone (negb (done t)) t) = g t) →
             g <$> ((fun t => if hasId i t then withDone (negb (done t)) t else t)
                      <$> todos s) = g <$> todos s).
  { intros B g Hg. rewrite <- list_fmap_compose. apply list_fmap_ext.
    intros _ t _. simpl. destruct (hasId i t); [apply Hg|done]. }
  repeat split; try (by apply Hmap).
  - by rewrite length_fmap.
  - intros Hi. destruct s as [l nt nd f m ei et us um]. unfold setTodos. simpl in *.
    f_equal. apply toggle_todos_other. intros t Ht Heq. apply Hi.
    rewrite <- Heq. by apply list_elem_of_fmap_2.
Qed.

(** X3. In a collection with unique ids, toggling the id of a task that is
    not done lowers the remaining count by one, and toggling the id of a
    done task raises it by one. *)
Theorem toggleTodo_remaining (i : jsstring) (s : AppState) (t : Todo) :
  uniqueIds (todos s) → List.find (hasId i) (todos s) = Some t →
  (remainingCount (toggleTodo i s) + (if done t then 0 else 1) =
   remainingCount s + (if done t then 1 else 0))%nat.
Proof.
  intros Hnd Hf.
  destruct (filter_other_ids_split i (todos s) t Hnd Hf) as (l1 & l2 & Hl & Hfl).
  destruct (find_hasId_Some _ _ _ Hf) as [_ Hid].
  assert (Hother : ∀ u, u ∈ l1 ++ l2 → id u ≠ i).
  { intros u Hu. rewrite <- Hfl in Hu. by apply list_elem_of_filter in Hu as [? _]. }
  unfold remainingCount, toggleTodo. simpl. rewrite Hl.
  rewrite fmap_app, fmap_cons.
  rewrite (toggle_todos_other i l1)
    by (intros u Hu; apply Hother, elem_of_app; by left).
  rewrite (toggle_todos_other i l2)
    by (intros u Hu; apply Hother, elem_of_app; by right).
  unfold hasId at 1. rewrite bool_decide_eq_true_2 by done.
  rewrite !filter_app, !length_app.
  destruct (done t) eqn:Hd.
  - rewrite (filter_cons_True _ (withDone _ t)) by done.
    rewrite (filter_cons_False _ t) by (rewrite Hd; done).
    simpl. lia.
  - rewrite (filter_cons_False _ (withDone _ t)) by done.
    rewrite (filter_cons_True _ t) by done.
    simpl. lia.
Qed.

Lemma toggleTodo_remaining_witness :
  remainingCount (stateOf [milk; bob; rent]) = 1%nat ∧
  (remainingCount (toggleTodo (lit "id-1") (stateOf [milk; bob; rent])) + 0 =
   remainingCount (stateOf [milk; bob; rent]) + 1)%nat.
Proof.
  split; [reflexivity|].
  refine (toggleTodo_remaining (lit "id-1") (stateOf [milk; bob; rent]) milk
            _ eq_refl).
  apply (bool_decide_unpack _). vm_compute. reflexivity.
Defined.

(** ** Deleting and editing *)

(** X4. Deleting an id that is present removes every task with that id and
    keeps the others in their order; the undo buffer becomes the first task
    that had the id and the message quotes its text. The collection gets
    shorter, by exactly one task when ids are unique. *)
Theorem deleteTodo_present (i : jsstring) (s : AppState) :
  i ∈ id <$> todos s →
  ∃ removed,
    List.find (hasId i) (todos s) = Some removed ∧
    (i ∉ id <$> todos (deleteTodo i s)) ∧
    (∀ t, t ∈ todos (deleteTodo i s) ↔ t ∈ todos s ∧ id t ≠ i) ∧
    (todos (deleteTodo i s) `sublist_of` todos s) ∧
    undoStack (deleteTodo i s) = Some [removed] ∧
    undoMessage (deleteTodo i s) =
      Some (lit "Deleted " ++ dquote ++ text removed ++ dquote) ∧
    (length (todos (deleteTodo i s)) < length (todos s))%nat ∧
    (uniqueIds (todos s) →
     S (length (todos (deleteTodo i s))) = length (todos s)).
Proof.
  intros Hin. destruct (find_hasId_is_Some _ _ Hin) as [removed Hf].
  destruct (find_hasId_Some _ _ _ Hf) as [Hrem Hid].
  exists removed. unfold deleteTodo. rewrite Hf. simpl.
  split; [done|]. split; [apply ids_filter_other|].
  split; [intros t; rewrite list_elem_of_filter; tauto|].
  split; [apply sublist_filter|]. split; [done|]. split; [done|]. split.
  - apply (length_filter_lt _ _ removed); [done|]. intros Hne. by apply Hne.
  - intros Hnd. destruct (filter_other_ids_split _ _ _ Hnd Hf) as (l1 & l2 & Hl & Hfl).
    rewrite Hfl, Hl, !length_app. simpl. lia.
Qed.

Lemma deleteTodo_present_witness :
  ∃ removed,
    removed = bob ∧
    todos (deleteTodo (lit "id-2") (stateOf [milk; bob; rent])) = [milk; rent] ∧
    undoStack (deleteTodo (lit "id-2") (stateOf [milk; bob; rent])) = Some [removed].
Proof.
  assert (Hin : lit "id-2" ∈ id <$> todos (stateOf [milk; bob; rent])).
  { apply (bool_decide_unpack _). vm_compute. reflexivity. }
  destruct (deleteTodo_present (lit "id-2") (stateOf [milk; bob; rent]) Hin)
    as (removed & Hf & _ & _ & _ & Hstack & _).
  exists removed. split; [|split; [vm_compute; reflexivity|exact Hstack]].
  vm_compute in Hf. by injection Hf as <-.
Defined.

(** X5. For an id that is not in the collection, deleting changes nothing in
    the state, and committing an edit, whatever its text, changes neither
    the collection nor the undo buffer nor its message. *)
Theorem unknown_id_ignored (i : jsstring) (s : AppState) :
  i ∉ id <$> todos s →
  deleteTodo i s = s ∧
  ∀ x, todos (editCommit i x s) = todos s ∧
       undoStack (editCommit i x s) = undoStack s ∧
       undoMessage (editCommit i x s) = undoMessage s.
Proof.
  intros Hi. pose proof (proj2 (find_hasId_None i (todos s)) Hi) as Hf.
  split.
  - unfold deleteTodo. by rewrite Hf.
  - intros x. unfold editCommit, saveEditing. simpl.
    destruct (length (trim x) =? 0)%nat; simpl.
    + rewrite Hf. simpl. split; [|done]. by apply filter_other_ids_absent.
    + split; [|done].
      rewrite <- (list_fmap_id (todos s)) at 2. apply list_fmap_ext.
      intros k t Ht. unfold hasId. rewrite bool_decide_eq_false_2; [done|].
      intros Heq. apply Hi. rewrite <- Heq. apply list_elem_of_fmap_2.
      by eapply list_elem_of_lookup_2.
Qed.

Lemma unknown_id_ignored_witness :
  deleteTodo (lit "id-7") (stateOf [milk; bob]) = stateOf [milk; bob] ∧
  todos (editCommit (lit "id-7") (lit "Feed cat") (stateOf [milk; bob])) = [milk; bob].
Proof.
  assert (Hi : lit "id-7" ∉ id <$> todos (stateOf [milk; bob])).
  { apply (bool_decide_unpack _). vm_compute. reflexivity. }
  destruct (unknown_id_ignored (lit "id-7") (stateOf [milk; bob]) Hi) as [Hdel Hedit].
  split; [exact Hdel|]. exact (proj1 (Hedit (lit "Feed cat"))).
Defined.

(** X6. Committing an edit whose text does not trim to the empty string
    gives the trimmed text to the tasks with that id and changes no other
    text; ids, done flags, due dates, order and the undo buffer stay as they
    were, and the editing session is closed. *)
Theorem editCommit_updates_text (i x : jsstring) (s : AppState) :
  trim x ≠ [] →
  text <$> todos (editCommit i x s) =
    (fun t => if hasId i t then trim x else text t) <$> todos s ∧
  id <$> todos (editCommit i x s) = id <$> todos s ∧
  done <$> todos (editCommit i x s) = done <$> todos s ∧
  dueDate <$> todos (editCommit i x s) = dueDate <$> todos s ∧
  undoStack (editCommit i x s) = undoStack s ∧
  undoMessage (editCommit i x s) = undoMessage s ∧
  editingId (editCommit i x s) = None ∧
  editingText (editCommit i x s) = [].
Proof.
  intros Hx. unfold editCommit, saveEditing. simpl.
  rewrite length_eqb_0. destruct (trim x) as [|c r] eqn:Htrim; [done|]. simpl.
  assert (Hmap : ∀ {B} (g h : Todo → B),
             (∀ t, g (if hasId i t then withText (c :: r) t else t) = h t) →
             g <$> ((fun t => if hasId i t then withText (c :: r) t else t)
                      <$> todos s) = h <$> todos s).
  { intros B g h Hg. rewrite <- list_fmap_compose. apply list_fmap_ext.
    intros _ t _. apply Hg. }
  repeat split; try done; apply Hmap; intros t; by destruct (hasId i t).
Qed.

Lemma editCommit_updates_text_witness :
  text <$> todos (editCommit (lit "id-2") (lit " Call Alice ") (stateOf [milk; bob]))
  = [lit "Buy milk"; lit "Call Alice"].
Proof.
  assert (Hx : trim (lit " Call Alice ") ≠ []) by (vm_compute; discriminate).
  rewrite (proj1 (editCommit_updates_text (lit "id-2") (lit " Call Alice ")
                    (stateOf [milk; bob]) Hx)).
  vm_compute. reflexivity.
Defined.

(** ** The editing session *)

Lemma withText_same (t : Todo) : withText (text t) t = t.
Proof. by destruct t. Qed.

(** X7. Opening the editor on a task of a collection with unique ids and
    committing the draft as it stands changes neither the collection nor
    the undo buffer, provided the text of the task is not empty and has no
    white space at its ends; the session is closed afterwards. *)
Theorem edit_without_change (t : Todo) (s : AppState) :
  uniqueIds (todos s) → t ∈ todos s → textOk t →
  todos (saveEditing (startEditing t s)) = todos s ∧
  undoStack (saveEditing (startEditing t s)) = undoStack s ∧
  undoMessage (saveEditing (startEditing t s)) = undoMessage s ∧
  editingId (saveEditing (startEditing t s)) = None.
Proof.
  intros Hnd Hin [Hne Htrim]. unfold saveEditing, startEditing. simpl.
  rewrite Htrim, length_eqb_0. destruct (text t) as [|c r] eqn:Htext; [done|].
  simpl. split; [|done].
  rewrite <- (list_fmap_id (todos s)) at 2. apply list_fmap_ext.
  intros k u Hu. simpl. unfold hasId. case_bool_decide as Hid; [|done].
  assert (u = t) as ->.
  { apply list_elem_of_lookup_2 in Hu as Hu'.
    apply list_elem_of_lookup in Hin as [k' Hk'].
    assert (k = k').
    { apply (NoDup_lookup (id <$> todos s) k k' (id t)); [done| |].
      - by rewrite list_lookup_fmap, Hu, <- Hid.
      - by rewrite list_lookup_fmap, Hk'. }
    subst k'. congruence. }
  rewrite <- Htext. apply withText_same.
Qed.

Lemma edit_without_change_witness :
  todos (saveEditing (startEditing bob (stateOf [milk; bob; rent]))) = [milk; bob; rent].
Proof.
  refine (proj1 (edit_without_change bob (stateOf [milk; bob; rent]) _ _ _)).
  - apply (bool_decide_unpack _). vm_compute. reflexivity.
  - apply (bool_decide_unpack _). vm_compute. reflexivity.
  - split; [discriminate|vm_compute; reflexivity].
Defined.

(** Cancelling closes the session without touching the collection or the
    undo buffer; opening the editor on another task drops the first draft
    without committing it; committing with no session open does nothing;
    and in the editor Escape cancels while Enter commits. *)
Lemma editing_session_steps (t1 t2 : Todo) (x : jsstring) (s : AppState) :
  todos (cancelEditing (setEditingText x (startEditing t1 s))) = todos s ∧
  undoStack (cancelEditing (setEditingText x (startEditing t1 s))) = undoStack s ∧
  undoMessage (cancelEditing (setEditingText x (startEditing t1 s))) = undoMessage s ∧
  editingId (cancelEditing (setEditingText x (startEditing t1 s))) = None ∧
  startEditing t2 (setEditingText x (startEditing t1 s)) = startEditing t2 s ∧
  (editingId s = None → saveEditing s = s) ∧
  onEditKeyDown (lit "Escape") s = cancelEditing s ∧
  onEditKeyDown (lit "Enter") s = saveEditing s.
Proof.
  repeat split. intros Hidle. unfold saveEditing. by rewrite Hidle.
Qed.

(** ** Texts *)

Section StoreForall.
Variable Q : Todo → Prop.
Hypothesis Q_done : ∀ b t, Q t → Q (withDone b t).
Hypothesis Q_text : ∀ x t, Q t → trim x ≠ [] → Q (withText (trim x) t).
Hypothesis Q_new :
  ∀ i x due, trim x ≠ [] → Q (mkTodo i (trim x) false (dueOfInput due)).

(** A property of tasks that toggling and renaming keep and that new tasks
    have holds in the collection and in the undo buffer after every
    operation, when it held before. *)
Lemma applyOp_Forall (op : Op) (s : AppState) :
  Forall Q (todos s) → Forall Q (buffered s) →
  Forall Q (todos (applyOp op s)) ∧ Forall Q (buffered (applyOp op s)).
Proof.
  intros Ht Hb.
  assert (Hfilter : ∀ (P : Todo → Prop) `{!∀ t, Decision (P t)} l,
             Forall Q l → Forall Q (filter P l)).
  { intros P ? l Hl. apply Forall_forall. intros t Hin.
    apply list_elem_of_filter in Hin as [_ Hin].
    rewrite Forall_forall in Hl. by apply Hl. }
  assert (Hfind : ∀ i t, List.find (hasId i) (todos s) = Some t → Q t).
  { intros i t Hf. apply find_hasId_Some in Hf as [Hin _].
    rewrite Forall_forall in Ht. by apply Ht. }
  destruct op as [x due e|i|i|i x| | |]; simpl.
  - destruct (add_unfold x due e s) as (Hst & _ & Htodos).
    unfold buffered. rewrite Hst, Htodos. split; [|exact Hb].
    destruct (trim x) as [|c r] eqn:Htrim; [done|].
    apply Forall_app. split; [done|]. repeat constructor.
    rewrite <- Htrim. apply Q_new. by rewrite Htrim.
  - split; [|exact Hb]. apply Forall_fmap. eapply Forall_impl; [exact Ht|].
    intros t Hq. simpl. destruct (hasId i t); [by apply Q_done|done].
  - unfold deleteTodo. destruct (List.find (hasId i) (todos s)) as [t|] eqn:Hf;
      [|done]. split; simpl; [by apply Hfilter|].
    repeat constructor. by apply (Hfind i).
  - unfold editCommit, saveEditing. simpl. rewrite length_eqb_0.
    destruct (truthyStr (trim x)) eqn:Htr; simpl.
    + split; [|exact Hb]. simpl. apply Forall_fmap.
      eapply Forall_impl; [exact Ht|].
      intros t Hq. simpl. destruct (hasId i t); [|done].
      apply Q_text; [done|]. intros Hnil. by rewrite Hnil in Htr.
    + destruct (List.find (hasId i) (todos s)) as [t|] eqn:Hf; split; simpl;
        try by apply Hfilter.
      * repeat constructor. by apply (Hfind i).
      * exact Hb.
  - unfold clearCompleted. destruct (0 <? _)%nat; split; simpl;
      try by apply Hfilter.
    exact Hb.
  - destruct (undo_appends s) as (restored & Happ & Hsub & _).
    split.
    + rewrite Happ. apply Forall_app. split; [done|].
      apply Forall_forall. intros t Hin. rewrite Forall_forall in Hb.
      apply Hb. by eapply elem_of_sublist.
    + destruct (undo_buffer_empty s) as [-> | ->]; [constructor|done].
  - split; [exact Ht|constructor].
Qed.

Lemma run_Forall (ops : list Op) (s : AppState) :
  Forall Q (todos s) → Forall Q (buffered s) →
  Forall Q (todos (run ops s)) ∧ Forall Q (buffered (run ops s)).
Proof.
  revert s. induction ops as [|op ops IH]; intros s Ht Hb; [done|].
  destruct (applyOp_Forall op s Ht Hb) as [Ht' Hb']. by apply IH.
Qed.
End StoreForall.

(** X8. After every run of store operations from the initial state, every
    task of the collection and of the undo buffer has a text that is not
    empty and has no white space at its ends. *)
Theorem texts_stay_trimmed (ops : list Op) :
  Forall textOk (todos (run ops initialState)) ∧
  Forall textOk (buffered (run ops initialState)).
Proof.
  apply (run_Forall textOk).
  - intros b t Hq. exact Hq.
  - intros x t _ Hx. split; [exact Hx|apply trim_idempotent].
  - intros i x due Hx. split; [exact Hx|apply trim_idempotent].
  - constructor.
  - constructor.
Qed.

(** ** The form *)

(** X9. Submitting the form twice in a row adds at most one task: a
    successful submit empties the two inputs, so that the second submit is
    rejected, and a rejected submit changes nothing. Escape in the text
    input empties the two inputs and nothing else. *)
Theorem addTodo_submit_twice (e1 e2 : IdSource) (s : AppState) :
  addTodo e2 (addTodo e1 s) = addTodo e1 s ∧
  (trim (newTodo s) ≠ [] →
   newTodo (addTodo e1 s) = [] ∧ newDue (addTodo e1 s) = []) ∧
  (trim (newTodo s) = [] → addTodo e1 s = s) ∧
  todos (onInputKeyDown (lit "Escape") s) = todos s ∧
  newTodo (onInputKeyDown (lit "Escape") s) = [] ∧
  newDue (onInputKeyDown (lit "Escape") s) = [].
Proof.
  assert (Hrej : ∀ e s0, trim (newTodo s0) = [] → addTodo e s0 = s0).
  { intros e s0 Htrim. unfold addTodo. by rewrite Htrim. }
  split; [|split; [|split; [apply Hrej|done]]].
  - destruct (trim (newTodo s)) as [|c r] eqn:Htrim.
    + rewrite (Hrej e1 s Htrim). by apply Hrej.
    + apply Hrej. unfold addTodo. rewrite Htrim. reflexivity.
  - intros Hne. unfold addTodo.
    destruct (trim (newTodo s)) as [|c r]; [done|]. by split.
Qed.

(** ** Clearing and undoing *)

Lemma uniqueIds_same_id (l : list Todo) (t u : Todo) :
  uniqueIds l → t ∈ l → u ∈ l → id t = id u → t = u.
Proof.
  intros Hnd Ht Hu Hid.
  apply list_elem_of_lookup in Ht as [k Hk].
  apply list_elem_of_lookup in Hu as [k' Hk'].
  assert (k = k').
  { apply (NoDup_lookup (id <$> l) k k' (id t)); [done| |].
    - by rewrite list_lookup_fmap, Hk.
    - by rewrite list_lookup_fmap, Hk', Hid. }
  subst k'. congruence.
Qed.

Lemma filter_all (P : Todo → Prop) `{!∀ t, Decision (P t)} (l : list Todo) :
  (∀ t, t ∈ l → P t) → filter P l = l.
Proof.
  induction l as [|t l IH]; intros Hl; [done|].
  rewrite filter_cons_True by (apply Hl; apply list_elem_of_here).
  rewrite IH; [done|]. intros u Hu. apply Hl. by apply list_elem_of_further.
Qed.

Lemma filter_none (P : Todo → Prop) `{!∀ t, Decision (P t)} (l : list Todo) :
  (∀ t, t ∈ l → ¬ P t) → filter P l = [].
Proof.
  induction l as [|t l IH]; intros Hl; [done|].
  rewrite filter_cons_False by (apply Hl; apply list_elem_of_here).
  apply IH. intros u Hu. apply Hl. by apply list_elem_of_further.
Qed.

(** What [undo] does to the collection when the buffer holds tasks. *)
Lemma undo_todos (s : AppState) (stack : list Todo) :
  undoStack s = Some stack →
  todos (undo s) =
    todos s ++ filter (fun t => id t ∉ id <$> todos s) stack ∧
  buffered (undo s) = [].
Proof.
  intros Hst. unfold undo, buffered. rewrite Hst.
  destruct stack as [|t stack]; simpl.
  - rewrite Hst. by rewrite app_nil_r.
  - split; [|done]. f_equal. apply list_filter_iff. intros u.
    by rewrite elem_of_list_to_set.
Qed.

(** X10. In a collection with unique ids that holds a done task, clearing the
    completed tasks and undoing at once brings back exactly the tasks that
    were done, behind the tasks that were not: the collection is the old one
    up to order, and the undo buffer and its message are empty. *)
Theorem clearCompleted_then_undo (s : AppState) :
  uniqueIds (todos s) → (∃ t, t ∈ todos s ∧ done t = true) →
  todos (undo (clearCompleted s)) =
    filter (fun t => done t = false) (todos s) ++
    filter (fun t => done t = true) (todos s) ∧
  todos (undo (clearCompleted s)) ≡ₚ todos s ∧
  undoStack (undo (clearCompleted s)) = None ∧
  undoMessage (undo (clearCompleted s)) = None.
Proof.
  intros Hnd (t & Ht & Hdone).
  assert (Hrem : filter (fun t => done t = true) (todos s) ≠ []).
  { intros Hnil. apply (filter_nil_not_elem_of _ _ t Hnil Hdone Ht). }
  assert (Hclear : ∃ msg,
    clearCompleted s =
      setTodos (filter (fun t => done t = false))
        (setUndoMessage (Some msg)
           (setUndoStack (Some (filter (fun t => done t = true) (todos s))) s))).
  { unfold clearCompleted.
    destruct (filter (fun t => done t = true) (todos s)) as [|u r]; [done|].
    by eexists. }
  destruct Hclear as [msg ->].
  destruct (undo_todos
              (setTodos (filter (fun t => done t = false))
                 (setUndoMessage (Some msg)
                    (setUndoStack (Some (filter (fun t => done t = true) (todos s))) s)))
              (filter (fun t => done t = true) (todos s)) eq_refl) as [Hundo _].
  rewrite Hundo; clear Hundo.
  cbn [todos setTodos setUndoMessage setUndoStack].
  assert (Hall : filter (fun u => id u ∉ id <$> filter (fun t => done t = false) (todos s))
                   (filter (fun t => done t = true) (todos s))
                 = filter (fun t => done t = true) (todos s)).
  { apply filter_all. intros u Hu Hin.
    apply list_elem_of_filter in Hu as [Hud Hu].
    apply list_elem_of_fmap in Hin as (v & Hid & Hv).
    apply list_elem_of_filter in Hv as [Hvd Hv].
    assert (u = v) by (by apply (uniqueIds_same_id (todos s))).
    subst v. congruence. }
  rewrite Hall. split; [done|]. split.
  - assert (Heq : filter (fun t => done t = true) (todos s)
                  = filter (fun t => ¬ done t = false) (todos s)).
    { apply list_filter_iff. intros u. destruct (done u); naive_solver. }
    rewrite Heq. apply filter_app_complement.
  - unfold undo. simpl.
    destruct (filter (fun t => done t = true) (todos s)) as [|u r]; done.
Qed.

Lemma clearCompleted_then_undo_witness :
  todos (undo (clearCompleted (stateOf [milk; bob; rent]))) = [bob; milk; rent] ∧
  todos (undo (clearCompleted (stateOf [milk; bob; rent]))) ≡ₚ [milk; bob; rent].
Proof.
  split; [vm_compute; reflexivity|].
  refine (proj1 (proj2 (clearCompleted_then_undo (stateOf [milk; bob; rent]) _ _))).
  - apply (bool_decide_unpack _). vm_compute. reflexivity.
  - exists milk. split; [apply list_elem_of_here|reflexivity].
Defined.

Lemma clearDisabled_spec (s : AppState) :
  clearDisabled s = true ↔ ∀ t, t ∈ todos s → done t = false.
Proof.
  unfold clearDisabled. rewrite forallb_forall. split.
  - intros Hall t Ht. apply negb_true_iff, Hall. by apply list_elem_of_In.
  - intros Hall t Ht. apply negb_true_iff, Hall. by apply list_elem_of_In.
Qed.

(** X11. The Clear Completed button is disabled exactly when clearing would
    change nothing in the state. Clearing twice is clearing once, the
    button is disabled after a clear, and a clear leaves the remaining
    count as it was. *)
Theorem clearCompleted_when_enabled (s : AppState) :
  (clearDisabled s = true ↔ clearCompleted s = s) ∧
  clearCompleted (clearCompleted s) = clearCompleted s ∧
  clearDisabled (clearCompleted s) = true ∧
  remainingCount (clearCompleted s) = remainingCount s.
Proof.
  assert (Hnoop : ∀ s0, clearDisabled s0 = true → clearCompleted s0 = s0).
  { intros s0 Hdis. rewrite clearDisabled_spec in Hdis. unfold clearCompleted.
    rewrite (filter_none (fun t => done t = true)); simpl.
    - destruct s0 as [l nt nd f m ei et us um]. unfold setTodos. simpl in *.
      f_equal. by apply filter_all.
    - intros t Ht Hd. rewrite (Hdis t Ht) in Hd. discriminate. }
  assert (Hafter : clearDisabled (clearCompleted s) = true).
  { apply clearDisabled_spec. intros t Ht. unfold clearCompleted in Ht.
    destruct (0 <? _)%nat; simpl in Ht;
      by apply list_elem_of_filter in Ht as [? _]. }
  split; [split; [apply Hnoop|]|split; [by apply Hnoop|split; [done|]]].
  - intros Heq. apply clearDisabled_spec. intros t Ht.
    rewrite <- Heq in Ht. unfold clearCompleted in Ht.
    destruct (0 <? _)%nat; simpl in Ht;
      by apply list_elem_of_filter in Ht as [? _].
  - unfold remainingCount, clearCompleted.
    destruct (0 <? _)%nat; simpl; by rewrite list_filter_filter_l.
Qed.

Lemma undo_undo (s : AppState) :
  undo (undo s) = undo s ∧ buffered (undo s) = [].
Proof.
  split.
  - assert (Hcases : undo s = s ∨ undoStack (undo s) = None).
    { unfold undo. destruct (undoStack s) as [[|t stack]|] eqn:Hst; simpl; auto. }
    destruct Hcases as [Hsame|Hnone].
    + by rewrite !Hsame.
    + unfold undo at 1. by rewrite Hnone.
  - destruct (undoStack s) as [stack|] eqn:Hst.
    + by destruct (undo_todos s stack Hst).
    + unfold undo, buffered. by rewrite Hst, Hst.
Qed.

(** X12. There is one level of undo: after an undo the buffer holds nothing
    and a second undo changes nothing; so does an undo after dismissing the
    snackbar. An undo never removes or moves a task of the collection. *)
Theorem undo_once (s : AppState) :
  undo (undo s) = undo s ∧
  buffered (undo s) = [] ∧
  undo (dismissUndo s) = dismissUndo s ∧
  todos s `prefix_of` todos (undo s).
Proof.
  destruct (undo_undo s) as [Htwice Hbuf].
  split; [exact Htwice|]. split; [exact Hbuf|]. split; [done|].
  destruct (undo_appends s) as (restored & -> & _). by exists restored.
Qed.

Lemma deleteTodo_then_undo_todos (i : jsstring) (s : AppState) (removed : Todo) :
  List.find (hasId i) (todos s) = Some removed →
  todos (undo (deleteTodo i s)) =
    filter (fun t => id t <> i) (todos s) ++ [removed] ∧
  undoStack (undo (deleteTodo i s)) = None.
Proof.
  intros Hf. destruct (find_hasId_Some _ _ _ Hf) as [_ Hid].
  unfold deleteTodo. rewrite Hf. split; [|reflexivity].
  match goal with
  | |- todos (undo ?s1) = _ =>
      destruct (undo_todos s1 [removed] eq_refl) as [-> _]
  end.
  simpl. f_equal. rewrite filter_cons_True; [done|].
  rewrite Hid. apply ids_filter_other.
Qed.

(** X13. A second delete overwrites the undo buffer: after deleting two
    different tasks of a collection with unique ids, undo brings back the
    second one only; the first one stays out of the collection and a further
    undo changes nothing. *)
Theorem undo_after_two_deletes (i j : jsstring) (s : AppState) :
  uniqueIds (todos s) → i ≠ j → i ∈ id <$> todos s → j ∈ id <$> todos s →
  (i ∉ id <$> todos (undo (deleteTodo j (deleteTodo i s)))) ∧
  (j ∈ id <$> todos (undo (deleteTodo j (deleteTodo i s)))) ∧
  todos (undo (deleteTodo j (deleteTodo i s))) ≡ₚ
    filter (fun t => id t <> i) (todos s) ∧
  undo (undo (deleteTodo j (deleteTodo i s))) = undo (deleteTodo j (deleteTodo i s)).
Proof.
  intros Hnd Hij Hi Hj.
  destruct (find_hasId_is_Some _ _ Hi) as [ri Hfi].
  assert (Htodos1 : todos (deleteTodo i s) = filter (fun t => id t <> i) (todos s)).
  { unfold deleteTodo. by rewrite Hfi. }
  assert (Hnd1 : uniqueIds (todos (deleteTodo i s))).
  { rewrite Htodos1. by apply uniqueIds_filter. }
  assert (Hj1 : j ∈ id <$> todos (deleteTodo i s)).
  { rewrite Htodos1. apply list_elem_of_fmap in Hj as (t & -> & Ht).
    apply list_elem_of_fmap_2. apply list_elem_of_filter. split; [congruence|done]. }
  destruct (find_hasId_is_Some _ _ Hj1) as [rj Hfj].
  destruct (deleteTodo_then_undo_todos j (deleteTodo i s) rj Hfj) as [Htodos _].
  destruct (find_hasId_Some _ _ _ Hfj) as [Hrj Hidj].
  assert (Hperm : todos (undo (deleteTodo j (deleteTodo i s))) ≡ₚ
                  filter (fun t => id t <> i) (todos s)).
  { rewrite Htodos.
    destruct (filter_other_ids_split j _ rj Hnd1 Hfj) as (l1 & l2 & Hl & Hfl).
    rewrite Hfl, <- Htodos1, Hl, <- app_assoc.
    apply Permutation_app_head. symmetry. apply Permutation_cons_append. }
  split; [|split; [|split; [exact Hperm|]]].
  - rewrite Hperm. apply ids_filter_other.
  - rewrite Htodos, fmap_app, elem_of_app. right. simpl. rewrite Hidj.
    apply list_elem_of_here.
  - apply undo_undo.
Qed.

Lemma undo_after_two_deletes_witness :
  todos (undo (deleteTodo (lit "id-2") (deleteTodo (lit "id-1")
           (stateOf [milk; bob; rent])))) = [rent; bob] ∧
  (lit "id-1" ∉ id <$> todos (undo (deleteTodo (lit "id-2") (deleteTodo (lit "id-1")
           (stateOf [milk; bob; rent]))))).
Proof.
  split; [vm_compute; reflexivity|].
  refine (proj1 (undo_after_two_deletes (lit "id-1") (lit "id-2")
                   (stateOf [milk; bob; rent]) _ _ _ _)).
  - apply (bool_decide_unpack _). vm_compute. reflexivity.
  - discriminate.
  - apply (bool_decide_unpack _). vm_compute. reflexivity.
  - apply (bool_decide_unpack _). vm_compute. reflexivity.
Defined.

(** X14. [undo] puts back the buffered tasks whose id is free, in the order
    of the buffer: all of them when none of their ids is in the collection,
    and none when all of their ids are taken, in which case the buffered
    tasks are dropped for good. So a task deleted and then replaced by a
    new task with the same id does not come back. *)
Theorem undo_restores_free_ids (s : AppState) :
  ((∀ t, t ∈ buffered s → id t ∉ id <$> todos s) →
   todos (undo s) = todos s ++ buffered s) ∧
  ((∀ t, t ∈ buffered s → id t ∈ id <$> todos s) →
   todos (undo s) = todos s ∧ buffered (undo s) = []) ∧
  (∀ i x due e,
      i ∈ id <$> todos s → safeId e = i → trim x ≠ [] →
      todos (undo (add x due e (deleteTodo i s))) =
        filter (fun t => id t <> i) (todos s) ++
        [mkTodo i (trim x) false (dueOfInput due)]).
Proof.
  assert (Hfree : ∀ s0, (∀ t, t ∈ buffered s0 → id t ∉ id <$> todos s0) →
                        todos (undo s0) = todos s0 ++ buffered s0).
  { intros s0 Hall. unfold buffered in *.
    destruct (undoStack s0) as [stack|] eqn:Hst.
    - destruct (undo_todos s0 stack Hst) as [-> _]. simpl. f_equal.
      by apply filter_all.
    - unfold undo. rewrite Hst. simpl. by rewrite app_nil_r. }
  assert (Htaken : ∀ s0, (∀ t, t ∈ buffered s0 → id t ∈ id <$> todos s0) →
                         todos (undo s0) = todos s0 ∧ buffered (undo s0) = []).
  { intros s0 Hall. split; [|apply undo_undo]. unfold buffered in *.
    destruct (undoStack s0) as [stack|] eqn:Hst.
    - destruct (undo_todos s0 stack Hst) as [-> _]. simpl.
      rewrite filter_none; [by rewrite app_nil_r|].
      intros t Ht Hnot. by apply Hnot, Hall.
    - unfold undo. by rewrite Hst. }
  split; [apply Hfree|]. split; [apply Htaken|].
  intros i x due e Hi He Hx.
  destruct (find_hasId_is_Some _ _ Hi) as [removed Hf].
  destruct (find_hasId_Some _ _ _ Hf) as [_ Hid].
  destruct (add_unfold x due e (deleteTodo i s)) as (Hst & _ & Htodos).
  assert (Hdel : todos (deleteTodo i s) = filter (fun t => id t <> i) (todos s) ∧
                 undoStack (deleteTodo i s) = Some [removed]).
  { unfold deleteTodo. by rewrite Hf. }
  destruct Hdel as [Hdt Hds].
  assert (Hadd : todos (add x due e (deleteTodo i s)) =
                 filter (fun t => id t <> i) (todos s) ++
                 [mkTodo i (trim x) false (dueOfInput due)]).
  { rewrite Htodos, Hdt, He. by destruct (trim x). }
  rewrite <- Hadd. apply Htaken.
  intros t Ht. unfold buffered in Ht. rewrite Hst, Hds in Ht. simpl in Ht.
  apply list_elem_of_singleton in Ht as ->.
  rewrite Hadd, fmap_app, elem_of_app. right. simpl. rewrite Hid.
  apply list_elem_of_here.
Qed.

(** ** The snackbar *)

Lemma applyOp_undoCoupled (op : Op) (s : AppState) :
  undoCoupled s → undoCoupled (applyOp op s).
Proof.
  intros Hc. destruct op as [x due e|i|i|i x| | |]; simpl.
  - destruct (add_unfold x due e s) as (Hst & Hmsg & _).
    unfold undoCoupled. by rewrite Hst, Hmsg.
  - exact Hc.
  - unfold deleteTodo. destruct (List.find (hasId i) (todos s)); [|done].
    unfold undoCoupled. simpl. by split.
  - unfold editCommit, saveEditing. simpl.
    destruct (length (trim x) =? 0)%nat; [|exact Hc].
    destruct (List.find (hasId i) (todos s)); [|exact Hc].
    unfold undoCoupled. simpl. by split.
  - unfold clearCompleted.
    destruct (filter (fun t => done t = true) (todos s)) as [|t r]; [exact Hc|].
    unfold undoCoupled. simpl. by split.
  - unfold undo. destruct (undoStack s) as [[|t stack]|] eqn:Hst; simpl; try done.
  - done.
Qed.

(** X15. After every run of store operations from the initial state, the
    undo buffer is null exactly when its message is, and the snackbar with
    the undo button is shown exactly when the buffer holds a task. *)
Theorem snackbar_shows_buffer (ops : list Op) :
  (undoStack (run ops initialState) = None ↔
   undoMessage (run ops initialState) = None) ∧
  (snackbarShown (run ops initialState) = true ↔
   buffered (run ops initialState) ≠ []).
Proof.
  assert (Hc : undoCoupled (run ops initialState)).
  { assert (Hgen : ∀ s, undoCoupled s → undoCoupled (run ops s)).
    { induction ops as [|op ops IH]; intros s Hs; [done|].
      apply IH. by apply applyOp_undoCoupled. }
    by apply Hgen. }
  unfold undoCoupled, snackbarShown, buffered in *.
  destruct (undoStack (run ops initialState)) as [stack|],
           (undoMessage (run ops initialState)) as [msg|]; simpl; try done.
  destruct Hc as [Hstack Hmsg]. split; [done|].
  destruct msg; [done|]. by split.
Qed.

(** ** The projection in every mode *)

Lemma project_Permutation lc (f : Filter) (m : SortMode) (l : list Todo) :
  project lc f m l ≡ₚ filter (keep f) l.
Proof. destruct m; simpl; [done|apply sortBy_Permutation..]. Qed.

(** X16. Whatever the filter, the sort mode and the collation, the displayed
    sequence is a rearrangement of the tasks the filter keeps: it shows a
    task exactly when the task is in the collection and passes the filter,
    it has unique ids when the collection has, and computing it writes to
    no array that existed before, the canonical one included. *)
Theorem projection_rearranges (lc : jsstring → jsstring → Z) (s : AppState) :
  filteredTodos lc s ≡ₚ filter (keep (filter_ s)) (todos s) ∧
  (∀ t, t ∈ filteredTodos lc s ↔ t ∈ todos s ∧ keep (filter_ s) t) ∧
  (uniqueIds (todos s) → uniqueIds (filteredTodos lc s)) ∧
  (∀ (h : Heap) (r : Ref),
      h !! r = Some (todos s) →
      ∀ k, (k < length h)%nat →
           snd (filteredTodosOn lc r (filter_ s) (sort_ s) h) !! k = h !! k).
Proof.
  rewrite filteredTodos_project.
  pose proof (project_Permutation lc (filter_ s) (sort_ s) (todos s)) as Hp.
  split; [exact Hp|]. split; [|split].
  - intros t. rewrite Hp, list_elem_of_filter. tauto.
  - intros Hnd. unfold uniqueIds. rewrite Hp. by apply uniqueIds_filter.
  - intros h r Hr. by apply (filteredTodosOn_spec lc r _ _ h (todos s)).
Qed.

(** X17. In the manual mode the displayed sequence is the tasks the filter
    keeps, in the order of the collection, and with the filter [all] it is
    the collection itself. The active and the completed tasks together are
    the collection, and in every sort mode the active filter shows as many
    tasks as the remaining count says. *)
Theorem manual_projection (lc : jsstring → jsstring → Z) (s : AppState) :
  (∀ f, filteredTodos lc (setSort Manual (setFilter f s))
        = filter (keep f) (todos s)) ∧
  (∀ f, filteredTodos lc (setSort Manual (setFilter f s)) `sublist_of` todos s) ∧
  filteredTodos lc (setSort Manual (setFilter FAll s)) = todos s ∧
  filteredTodos lc (setSort Manual (setFilter FActive s)) ++
    filteredTodos lc (setSort Manual (setFilter FCompleted s)) ≡ₚ todos s ∧
  (∀ m, length (filteredTodos lc (setSort m (setFilter FActive s)))
        = remainingCount s).
Proof.
  assert (Hman : ∀ f, filteredTodos lc (setSort Manual (setFilter f s))
                      = filter (keep f) (todos s)).
  { intros f. by rewrite filteredTodos_project. }
  split; [exact Hman|]. split; [|split; [|split]].
  - intros f. rewrite Hman. apply sublist_filter.
  - rewrite Hman. apply filter_keep_all.
  - rewrite !Hman.
    assert (Heq : filter (keep FCompleted) (todos s)
                  = filter (fun t => ¬ keep FActive t) (todos s)).
    { apply list_filter_iff. intros u. simpl. destruct (done u); naive_solver. }
    rewrite Heq. apply filter_app_complement.
  - intros m. rewrite filteredTodos_project. simpl.
    by rewrite project_Permutation.
Qed.

(** ** The status mode *)

Lemma compareStatus_statusOrder lc (a b : Todo) :
  compareStatus lc a b ≤ 0 ↔ statusOrder lc a b.
Proof.
  unfold compareStatus, statusOrder.
  destruct (done a), (done b); simpl; (done || split; (done || lia)).
Qed.

Lemma compareStatus_active_l lc (x y : Todo) :
  compareStatus lc x y ≤ 0 → negb (done y) = true → negb (done x) = true.
Proof.
  rewrite compareStatus_statusOrder. unfold statusOrder.
  by destruct (done x), (done y).
Qed.

Lemma compareStatus_active_r lc (x y : Todo) :
  ¬ compareStatus lc x y ≤ 0 → negb (done x) = true → negb (done y) = true.
Proof.
  rewrite compareStatus_statusOrder. unfold statusOrder.
  by destruct (done x), (done y).
Qed.

(** X18. In the status mode every task that is not done is shown before
    every done task, whatever the collation; when the collation is a total
    preorder the displayed sequence is sorted: not done first, and within
    each group in ascending order of text. *)
Theorem status_projection_sorted (lc : jsstring → jsstring → Z) (s : AppState) :
  sort_ s = Status →
  (∀ i j a b, filteredTodos lc s !! i = Some a → filteredTodos lc s !! j = Some b →
              done a = false → done b = true → (i < j)%nat) ∧
  ((∀ x y, lc x y ≤ 0 ∨ lc y x ≤ 0) →
   (∀ x y z, lc x y ≤ 0 → lc y z ≤ 0 → lc x z ≤ 0) →
   StronglySorted (statusOrder lc) (filteredTodos lc s)).
Proof.
  intros Hsort. rewrite filteredTodos_project, Hsort. simpl. split.
  - intros i j a b Hi Hj Ha Hb.
    pose proof (sortBy_classOrder (compareStatus lc) (fun t => negb (done t))
                  (compareStatus_active_l lc) (compareStatus_active_r lc)
                  (filter (keep (filter_ s)) (todos s))) as Hs.
    destruct (Nat.lt_trichotomy i j) as [Hlt|[->|Hgt]]; [done| |].
    + rewrite Hi in Hj. injection Hj as ->. congruence.
    + pose proof (StronglySorted_lookup _ _ j i b a Hs Hj Hi Hgt) as Hcl.
      unfold classOrder in Hcl. rewrite Ha, Hb in Hcl. simpl in Hcl.
      discriminate (Hcl eq_refl).
  - intros Htotal Htrans.
    apply (StronglySorted_impl (notAfter (compareStatus lc)) _ (fun _ => True)).
    + intros a b _ _. by apply compareStatus_statusOrder.
    + apply Forall_forall. done.
    + apply (sortBy_sorted _ (fun _ => True)).
      * intros x y _ _. rewrite !compareStatus_statusOrder. unfold statusOrder.
        destruct (done x), (done y); auto.
      * intros x y z _ _ _. rewrite !compareStatus_statusOrder. unfold statusOrder.
        destruct (done x), (done y), (done z); try done; apply Htrans.
      * apply Forall_forall. done.
Qed.

Lemma status_projection_sorted_witness :
  text <$> filteredTodos codeUnitOrder
    (mkState [rent; bob; milk] [] [] FAll Status None [] None None)
    = [lit "Call Bob"; lit "Buy milk"; lit "Pay rent"] ∧
  StronglySorted (statusOrder codeUnitOrder)
    (filteredTodos codeUnitOrder
       (mkState [rent; bob; milk] [] [] FAll Status None [] None None)).
Proof.
  split; [vm_compute; reflexivity|].
  exact (proj2 (status_projection_sorted codeUnitOrder
                  (mkState [rent; bob; milk] [] [] FAll Status None [] None None)
                  eq_refl) codeUnitOrder_total codeUnitOrder_trans).
Defined.

(** ** More on the overdue flag *)

(** X19. A task that is overdue on some day is overdue on every later day,
    as long as it is not marked done; marking it done clears the flag on
    every day. *)
Theorem isOverdue_later (today later : jsstring) (t : Todo) :
  isOverdue today t = true → strLt today later = true →
  isOverdue later t = true ∧
  (∀ day, isOverdue day (withDone true t) = false).
Proof.
  unfold isOverdue, truthyDue. intros Hov Hlater. split.
  - destruct (truthyStr (dueKey t)); [|done]. destruct (done t); [done|].
    simpl in *. apply strLt_lexLt. apply strLt_lexLt in Hov, Hlater.
    by apply (lexLt_trans _ today).
  - intros day. simpl. by rewrite orb_true_r.
Qed.

Lemma isOverdue_later_witness :
  isOverdue (lit "2024-01-02") (withDone false milk) = true ∧
  isOverdue (lit "2024-03-01") (withDone false milk) = true.
Proof.
  split; [reflexivity|].
  exact (proj1 (isOverdue_later (lit "2024-01-02") (lit "2024-03-01")
                  (withDone false milk) eq_refl eq_refl)).
Defined.

(** ** The edit row *)

Lemma filter_id_at_most_one (i : jsstring) (l : list Todo) :
  uniqueIds l → (length (filter (fun t => id t = i) l) ≤ 1)%nat.
Proof.
  unfold uniqueIds. induction l as [|t l IH]; [simpl; lia|].
  rewrite fmap_cons, NoDup_cons. intros [Hnot Hnd].
  destruct (decide (id t = i)) as [Heq|Hne].
  - rewrite filter_cons_True by done. rewrite filter_none; [simpl; lia|].
    intros u Hu Hid. apply Hnot. rewrite Heq, <- Hid. by apply list_elem_of_fmap_2.
  - rewrite filter_cons_False by done. by apply IH.
Qed.

Lemma editingId_saveEditing (s : AppState) : editingId (saveEditing s) = None.
Proof. unfold saveEditing. by destruct (editingId s) eqn:He. Qed.

(** X20. With unique ids, at most one displayed task shows its edit row,
    whatever the filter and the sort mode; none does once the session has
    been committed or cancelled. *)
Theorem one_edit_row (lc : jsstring → jsstring → Z) (s : AppState) :
  uniqueIds (todos s) →
  (length (filter (fun t => editRowShown s t = true) (filteredTodos lc s)) ≤ 1)%nat ∧
  filter (fun t => editRowShown (saveEditing s) t = true)
    (filteredTodos lc (saveEditing s)) = [] ∧
  filter (fun t => editRowShown (cancelEditing s) t = true)
    (filteredTodos lc (cancelEditing s)) = [].
Proof.
  intros Hnd. split; [|split].
  - assert (Hu : uniqueIds (filteredTodos lc s)).
    { rewrite filteredTodos_project. unfold uniqueIds.
      rewrite project_Permutation. by apply uniqueIds_filter. }
    destruct (editingId s) as [eid|] eqn:He.
    + rewrite (list_filter_iff _ (fun t => id t = eid)).
      * by apply filter_id_at_most_one.
      * intros t. unfold editRowShown. rewrite He, bool_decide_eq_true.
        split; [by intros [= ->]|by intros ->].
    + rewrite filter_none; [simpl; lia|].
      intros t _ Hrow. apply bool_decide_eq_true in Hrow. by rewrite He in Hrow.
  - apply filter_none. intros t _ Hrow. apply bool_decide_eq_true in Hrow.
    by rewrite editingId_saveEditing in Hrow.
  - apply filter_none. intros t _ Hrow. by apply bool_decide_eq_true in Hrow.
Qed.

Lemma one_edit_row_witness :
  filter (fun t => editRowShown (startEditing bob (stateOf [milk; bob; rent])) t = true)
    (filteredTodos codeUnitOrder (startEditing bob (stateOf [milk; bob; rent])))
    = [bob] ∧
  (length (filter (fun t => editRowShown (startEditing bob (stateOf [milk; bob; rent])) t = true)
             (filteredTodos codeUnitOrder (startEditing bob (stateOf [milk; bob; rent]))))
   ≤ 1)%nat.
Proof.
  split; [vm_compute; reflexivity|].
  refine (proj1 (one_edit_row codeUnitOrder
                   (startEditing bob (stateOf [milk; bob; rent])) _)).
  apply (bool_decide_unpack _). vm_compute. reflexivity.
Defined.

(** ** Persisting the preferences *)

(** X21. The filter and the sort mode survive a restart: after the two
    effects have written them to a working storage, the load effect started
    in the initial state restores both, whatever else the storage holds and
    whatever the stored tasks parse to; the two effects do not write the
    tasks entry. *)
Theorem preferences_round_trip (s : AppState) (st : Storage)
    (JSON_parse : jsstring → Completion JSValue) (asTodo : JSValue → Todo) :
  filter_ (snd (loadEffect (getItemOf (saveSortEffect s (saveFilterEffect s st)))
                  JSON_parse asTodo initialState)) = filter_ s ∧
  sort_ (snd (loadEffect (getItemOf (saveSortEffect s (saveFilterEffect s st)))
                JSON_parse asTodo initialState)) = sort_ s ∧
  saveSortEffect s (saveFilterEffect s st) !! STORAGE_KEYS.todos
    = st !! STORAGE_KEYS.todos.
Proof.
  rewrite loadEffect_filter, loadEffect_sort.
  unfold loadFilter, loadSort, mbind, Stmt_bind, bind, eval, getItemOf.
  unfold saveSortEffect, saveFilterEffect, setItem.
  split; [|split].
  - rewrite lookup_insert_ne by done. rewrite lookup_insert_eq. by destruct (filter_ s).
  - rewrite lookup_insert_eq. by destruct (sort_ s).
  - by rewrite !lookup_insert_ne.
Qed.

(** ** The percentage on short lists *)

(** X24. For a collection of fewer than 40 tasks the displayed percentage is
    the exactly rounded one, a half going up, and lies between 0 and 100. *)
Theorem completionPct_short_lists (s : AppState) :
  (length (todos s) < 40)%nat →
  completionPct s = numOfZ (exactPercent (length (todos s)) (remainingCount s)) ∧
  0 ≤ exactPercent (length (todos s)) (remainingCount s) ≤ 100.
Proof.
  intros Hlen. split; [by apply completionPct_exact_below_40|].
  assert (Hrem : (remainingCount s ≤ length (todos s))%nat) by apply length_filter.
  unfold exactPercent. destruct (Nat.eqb_spec (length (todos s)) 0); [lia|].
  split.
  - apply Z.div_pos; lia.
  - apply Z.lt_succ_r. apply Z.div_lt_upper_bound; lia.
Qed.

Lemma completionPct_short_lists_witness :
  completionPct (stateOf [milk; bob; withDone false rent]) = numOfZ 33 ∧
  completionPct (stateOf [milk; bob; withDone false rent]) =
    numOfZ (exactPercent 3 2).
Proof.
  split; [vm_compute; reflexivity|].
  refine (proj1 (completionPct_short_lists
                   (stateOf [milk; bob; withDone false rent]) _)).
  simpl. lia.
Defined.

(** ** Runs of additions *)

(** X25. A run of [add] calls lengthens the collection by the number of
    calls whose text does not trim to the empty string; it removes and
    moves no task that was there and leaves the undo buffer alone. *)
Theorem addAll_extends (calls : list (jsstring * option jsstring * IdSource))
    (s : AppState) :
  length (todos (addAll calls s)) =
    (length (todos s) +
     length (filter (fun c => trim (fst (fst c)) <> []) calls))%nat ∧
  todos s `prefix_of` todos (addAll calls s) ∧
  undoStack (addAll calls s) = undoStack s ∧
  undoMessage (addAll calls s) = undoMessage s.
Proof.
  split; [apply addAll_length|].
  revert s. induction calls as [|[[x due] e] calls IH]; intros s; [done|].
  unfold addAll in *. simpl.
  destruct (IH (add x due e s)) as (Hpre & Hst & Hmsg).
  destruct (add_unfold x due e s) as (Hst1 & Hmsg1 & Htodos).
  rewrite Hst, Hmsg, Hst1, Hmsg1. split; [|done].
  etrans; [|exact Hpre]. rewrite Htodos.
  destruct (trim x); [done|]. by apply prefix_app_r.
Qed.

(** ** The earlier variant *)

Lemma legacy_add_unfold (x : jsstring) (now : Z) (s : Legacy.AppState) :
  trim x ≠ [] →
  Legacy.todos (Legacy.add x now s) =
    Legacy.todos s ++ [Legacy.mkTodo now (trim x) false].
Proof.
  intros Hx. unfold Legacy.add, Legacy.addTodo. simpl.
  by rewrite bool_decide_eq_false_2.
Qed.

(** X22. In the earlier variant the id of a task is the time of its
    creation: two tasks added in the same millisecond share their id, and
    then toggling that id completes both and deleting it removes both. *)
Theorem legacy_same_millisecond (x1 x2 : jsstring) (now : Z) (s : Legacy.AppState) :
  trim x1 ≠ [] → trim x2 ≠ [] →
  Legacy.todos (Legacy.add x2 now (Legacy.add x1 now s)) =
    Legacy.todos s ++
    [Legacy.mkTodo now (trim x1) false; Legacy.mkTodo now (trim x2) false] ∧
  ¬ NoDup (Legacy.id <$> Legacy.todos (Legacy.add x2 now (Legacy.add x1 now s))) ∧
  (∃ l, Legacy.todos (Legacy.toggleTodo now (Legacy.add x2 now (Legacy.add x1 now s)))
        = l ++ [Legacy.mkTodo now (trim x1) true; Legacy.mkTodo now (trim x2) true]) ∧
  Legacy.todos (Legacy.deleteTodo now (Legacy.add x2 now (Legacy.add x1 now s))) =
    filter (fun t => Legacy.id t <> now) (Legacy.todos s).
Proof.
  intros H1 H2.
  assert (Htodos : Legacy.todos (Legacy.add x2 now (Legacy.add x1 now s)) =
                   Legacy.todos s ++
                   [Legacy.mkTodo now (trim x1) false; Legacy.mkTodo now (trim x2) false]).
  { rewrite legacy_add_unfold by done. rewrite legacy_add_unfold by done.
    by rewrite <- app_assoc. }
  split; [exact Htodos|]. split; [|split].
  - rewrite Htodos, fmap_app. simpl. intros Hnd.
    apply NoDup_app in Hnd as (_ & _ & Hnd).
    apply NoDup_cons in Hnd as [Hnot _]. apply Hnot, list_elem_of_here.
  - unfold Legacy.toggleTodo. simpl. rewrite Htodos, fmap_app. eexists.
    f_equal. simpl. by rewrite bool_decide_eq_true_2.
  - unfold Legacy.deleteTodo. simpl. rewrite Htodos, filter_app.
    rewrite filter_cons_False by (simpl; tauto).
    rewrite filter_cons_False by (simpl; tauto).
    by rewrite filter_nil, app_nil_r.
Qed.

Lemma legacy_same_millisecond_witness :
  Legacy.todos (Legacy.deleteTodo 1700000000000
     (Legacy.add (lit "Call Bob") 1700000000000
        (Legacy.add (lit "Buy milk") 1700000000000 (Legacy.mkState [] []))))
  = [].
Proof.
  refine (proj2 (proj2 (proj2 (legacy_same_millisecond (lit "Buy milk") (lit "Call Bob")
            1700000000000 (Legacy.mkState [] []) _ _)))).
  - vm_compute. discriminate.
  - vm_compute. discriminate.
Defined.

(** X23. In the earlier variant, while every task is added at a time later
    than the ids already in the collection, the ids are in strictly
    ascending order, hence unique: adding at such a time, toggling and
    deleting keep them so. *)
Theorem legacy_ids_ascending (s : Legacy.AppState) :
  StronglySorted Z.lt (Legacy.id <$> Legacy.todos s) →
  (∀ x now, (∀ t, t ∈ Legacy.todos s → Legacy.id t < now) →
            StronglySorted Z.lt (Legacy.id <$> Legacy.todos (Legacy.add x now s))) ∧
  (∀ i, StronglySorted Z.lt (Legacy.id <$> Legacy.todos (Legacy.toggleTodo i s))) ∧
  (∀ i, StronglySorted Z.lt (Legacy.id <$> Legacy.todos (Legacy.deleteTodo i s))) ∧
  NoDup (Legacy.id <$> Legacy.todos s).
Proof.
  intros Hs. split; [|split; [|split]].
  - intros x now Hnow. unfold Legacy.add, Legacy.addTodo. simpl.
    case_bool_decide as Hx; simpl; [done|].
    rewrite fmap_app. apply StronglySorted_app_2; [|done|by repeat constructor].
    intros i j Hi Hj. simpl in Hj. apply list_elem_of_singleton in Hj as ->.
    apply list_elem_of_fmap in Hi as (t & -> & Ht). by apply Hnow.
  - intros i. unfold Legacy.toggleTodo. simpl.
    rewrite <- list_fmap_compose.
    rewrite (list_fmap_ext _ Legacy.id (Legacy.todos s)); [done|].
    intros k t _. simpl. by case_bool_decide.
  - intros i. unfold Legacy.deleteTodo. simpl.
    assert (Hsub : Legacy.id <$> filter (fun t => Legacy.id t <> i) (Legacy.todos s)
                   `sublist_of` Legacy.id <$> Legacy.todos s).
    { apply fmap_sublist, sublist_filter. }
    revert Hsub Hs. generalize (Legacy.id <$> Legacy.todos s).
    generalize (Legacy.id <$> filter (fun t => Legacy.id t <> i) (Legacy.todos s)).
    intros l1 l2 Hsub Hs. revert l1 Hsub.
    induction Hs as [|z l2 Hs IH Hall]; intros l1 Hsub.
    + apply sublist_nil_r in Hsub as ->. constructor.
    + apply sublist_cons_r in Hsub as [Hsub|(l1' & -> & Hsub)]; [by apply IH|].
      constructor; [by apply IH|].
      rewrite Forall_forall in Hall. apply Forall_forall. intros y Hy.
      apply Hall. by eapply elem_of_sublist.
  - revert Hs. generalize (Legacy.id <$> Legacy.todos s). intros l Hs.
    induction Hs as [|z l Hs IH Hall]; [constructor|].
    apply NoDup_cons. split; [|done]. intros Hin.
    rewrite Forall_forall in Hall. specialize (Hall z Hin). lia.
Qed.

Lemma legacy_ids_ascending_witness :
  StronglySorted Z.lt
    (Legacy.id <$> Legacy.todos
       (Legacy.add (lit "Call Bob") 1700000000500
          (Legacy.mkState [Legacy.mkTodo 1700000000000 (lit "Buy milk") true] []))).
Proof.
  refine (proj1 (legacy_ids_ascending
            (Legacy.mkState [Legacy.mkTodo 1700000000000 (lit "Buy milk") true] []) _)
            (lit "Call Bob") 1700000000500 _).
  - simpl. repeat constructor.
  - intros t Ht. simpl in Ht. apply list_elem_of_singleton in Ht as ->. simpl. lia.
Defined.
